(** * referencedResourceInformers: watch-session registry and event fan-out

    A shallow embedding of [internal/controller/object/informers.go].

    The Go struct [referencedResourceInformers] becomes a record whose two
    maps are stdpp [gmap]s.  Every method is a function on that record which
    also returns the list of effects it performed, in program order: lock
    operations, map writes, calls into the resource cache, cancellations,
    goroutine spawns and log lines.  External collaborators (the
    controller-runtime cache, the informer, the reference index) are
    abstract: their answers are taken from an arbitrary environment. *)

From stdpp Require Import gmap strings list fin_maps.

(** ** Identities of the external objects *)

Definition Error := string.
Definition Ctx := nat.          (* a context.Context, by identity *)
Definition Cache := nat.        (* a cache.Cache, by identity *)
Definition Informer := nat.     (* a cache.Informer, by identity *)
Definition RestConfig := string.
Definition EventHandler := string.  (* a handler.EventHandler, by identity *)
Definition Queue := string.         (* a workqueue, by identity *)

(** clients.Cluster: only [GetConfig] is used here. *)
Record Cluster := { GetConfig : RestConfig }.

(** schema.GroupVersionKind *)
Record GroupVersionKind := { Group : string; Version : string; Kind : string }.

(** type gvkWithConfig struct *)
Record gvkWithConfig := { config : string; gvk : GroupVersionKind }.

#[global] Instance GroupVersionKind_eq_dec : EqDecision GroupVersionKind.
Proof. solve_decision. Defined.

#[global] Instance gvkWithConfig_eq_dec : EqDecision gvkWithConfig.
Proof. solve_decision. Defined.

#[global] Instance GroupVersionKind_countable : Countable GroupVersionKind.
Proof.
  refine (inj_countable' (fun g => (Group g, Version g, Kind g))
                         (fun t => {| Group := t.1.1; Version := t.1.2; Kind := t.2 |}) _).
  by intros [].
Defined.

#[global] Instance gvkWithConfig_countable : Countable gvkWithConfig.
Proof.
  refine (inj_countable' (fun g => (config g, gvk g))
                         (fun t => {| config := t.1; gvk := t.2 |}) _).
  by intros [].
Defined.

(** schema.GroupVersionKind.String *)
Definition GroupVersionKind_String (g : GroupVersionKind) : string :=
  Group g +:+ "/" +:+ Version g +:+ ", Kind=" +:+ Kind g.

(** func (g gvkWithConfig) String() string *)
Definition gvkWithConfig_String (g : gvkWithConfig) : string :=
  config g +:+ "." +:+ GroupVersionKind_String (gvk g).

(** client.Object: the handler only reads the resource version. *)
Record Object := { GetName : string; GetResourceVersion : string }.

(** runtimeevent.UpdateEvent *)
Record UpdateEvent := { ObjectOld : Object; ObjectNew : Object }.

(** predicate.Predicate: only [Update] is used; it is a filter. *)
Record Predicate := { predicateName : string; Update : UpdateEvent -> bool }.

(** [p] lets [ev] through. *)
Definition accepts (ev : UpdateEvent) (p : Predicate) : Prop := Update p ev = true.

(** ** Effects *)

(** What one entry of [sinks] does when it is called. *)
Inductive SinkEvent :=
| EvPredicateUpdate (p : Predicate) (ev : UpdateEvent)          (* p.Update(ev) *)
| EvHandlerUpdate (h : EventHandler) (ctx : Ctx) (ev : UpdateEvent) (q : Queue). (* h.Update(ctx, ev, q) *)

(** The value type of [sinks]: func(ev runtimeevent.UpdateEvent). *)
Abbreviation DeliveryFn := (UpdateEvent -> list SinkEvent).

(** type cdCache struct *)
Record cdCache := { cache : Cache; cancelFn : Ctx }.

(** v1alpha2.ObjectList after a [List] call, with the call's error. *)
Definition ListResult : Type := list Object * option Error.

(** type referencedResourceInformers struct.  [log] and [lock] have no
    content of their own: their use shows in the effects.  [objectsCache]
    is represented by its [List] method restricted to one
    [client.MatchingFields] entry (context, field, value). *)
Record referencedResourceInformers := {
  cluster : Cluster;
  cdCaches : gmap gvkWithConfig cdCache;
  objectsCache : Ctx -> string -> string -> ListResult;
  sinks : gmap string DeliveryFn;
}.

Definition set_sinks (f : gmap string DeliveryFn -> gmap string DeliveryFn)
    (i : referencedResourceInformers) : referencedResourceInformers :=
  {| cluster := cluster i; cdCaches := cdCaches i;
     objectsCache := objectsCache i; sinks := f (sinks i) |}.

Definition set_cdCaches (f : gmap gvkWithConfig cdCache -> gmap gvkWithConfig cdCache)
    (i : referencedResourceInformers) : referencedResourceInformers :=
  {| cluster := cluster i; cdCaches := f (cdCaches i);
     objectsCache := objectsCache i; sinks := sinks i |}.

(** What a session's change handler does when the informer calls it. *)
Inductive Notification :=
| NRLock                                     (* i.lock.RLock() *)
| NRUnlock                                   (* deferred i.lock.RUnlock() *)
| NSink (id : string) (ev : UpdateEvent) (effects : list SinkEvent). (* handleFn(ev) for sinks[id] *)

(** kcache.ResourceEventHandlerFuncs: three optional callbacks.  A callback
    runs against the receiver [i] as it is when the informer fires. *)
Record ResourceEventHandlerFuncs := {
  AddFunc : option (Object -> referencedResourceInformers -> list Notification);
  UpdateFunc : option (Object -> Object -> referencedResourceInformers -> list Notification);
  DeleteFunc : option (Object -> referencedResourceInformers -> list Notification);
}.




Inductive Goroutine :=
| GoUnsubscribe (ctx : Ctx) (id : string)   (* Start: <-ctx.Done(); delete(i.sinks, id) *)
| GoCacheStart (ca : Cache) (ctx : Ctx)     (* defer cancelFn(); ca.Start(ctx) *)
| GoWaitForCacheSync (ca : Cache) (ctx : Ctx).

Inductive LogLevel := Debug | Info.

(** What a method of [referencedResourceInformers] does, in program order. *)
Inductive Event :=
| EvLock | EvUnlock | EvRLock | EvRUnlock
| EvSetSink (id : string)                    (* i.sinks[id] = ... *)
| EvDeleteSink (id : string)                 (* delete(i.sinks, id) *)
| EvSetCdCache (gc : gvkWithConfig)          (* i.cdCaches[gc] = ... *)
| EvDeleteCdCache (gc : gvkWithConfig)       (* delete(i.cdCaches, gc) *)
| EvGo (g : Goroutine)
| EvLog (lvl : LogLevel) (msg : string) (kv : list (string * string))
| EvCacheNew (cfg : RestConfig)
| EvWithCancel (c : Ctx)                     (* context.WithCancel(context.Background()) *)
| EvGetInformer (ca : Cache) (c : Ctx) (g : GroupVersionKind)
| EvAddEventHandler (inf : Informer) (h : ResourceEventHandlerFuncs)
| EvCancel (c : Ctx)                         (* cancelFn() *)
| EvList (ctx : Ctx) (field value : string). (* i.objectsCache.List *)

(** ** Start *)

(** The loop [for _, p := range ps { if !p.Update(ev) { return } }] of the
    closure stored by [Start].  The boolean tells whether the loop ran to
    its end (true) or left the closure through [return] (false). *)
Fixpoint range_predicates (ps : list Predicate) (ev : UpdateEvent) : bool * list SinkEvent :=
  match ps with
  | [] => (true, [])
  | p :: ps' =>
      if Update p ev
      then let '(done, t) := range_predicates ps' ev in
           (done, EvPredicateUpdate p ev :: t)
      else (false, [EvPredicateUpdate p ev])
  end.

(** The closure [func(ev runtimeevent.UpdateEvent)] of lines 73-80. *)
Definition Start_sink (ctx : Ctx) (h : EventHandler) (q : Queue) (ps : list Predicate)
    : DeliveryFn :=
  fun ev =>
    let '(done, t) := range_predicates ps ev in
    if done then t ++ [EvHandlerUpdate h ctx ev q] else t.

(** func (i *referencedResourceInformers) Start(ctx, h, q, ps...) error.
    [id] is the value of [uuid.New().String()]. *)
Definition Start (ctx : Ctx) (h : EventHandler) (q : Queue) (ps : list Predicate)
    (id : string) (i : referencedResourceInformers)
    : option Error * referencedResourceInformers * list Event :=
  (None,
   set_sinks (insert id (Start_sink ctx h q ps)) i,
   [EvLock; EvSetSink id; EvGo (GoUnsubscribe ctx id); EvUnlock]).

(** The goroutine of lines 82-88, from the moment [ctx.Done()] fires. *)
Definition Start_ctxDone (id : string) (i : referencedResourceInformers)
    : referencedResourceInformers * list Event :=
  (set_sinks (delete id) i, [EvLock; EvDeleteSink id; EvUnlock]).

(** ** The change handler of a watch session *)

(** [for _, handleFn := range i.sinks { handleFn(ev) }] over the entries in
    the order the range produces them. *)
Definition range_sinks (entries : list (string * DeliveryFn)) (ev : UpdateEvent)
    : list Notification :=
  map (fun e => NSink e.1 ev (e.2 ev)) entries.

(** The [UpdateFunc] closure of lines 138-155.  Go leaves the order of a
    range over a map unspecified; [map_to_list] fixes one. *)
Definition WatchReferencedResources_UpdateFunc (oldObj newObj : Object)
    (i : referencedResourceInformers) : list Notification :=
  if String.eqb (GetResourceVersion oldObj) (GetResourceVersion newObj) then []
  else
    let ev := {| ObjectOld := oldObj; ObjectNew := newObj |} in
    [NRLock] ++ range_sinks (map_to_list (sinks i)) ev ++ [NRUnlock].

(** The value passed to [inf.AddEventHandler]: only [UpdateFunc] is set. *)
Definition WatchReferencedResources_handler : ResourceEventHandlerFuncs :=
  {| AddFunc := None;
     UpdateFunc := Some WatchReferencedResources_UpdateFunc;
     DeleteFunc := None |}.

(** ** cleanupReferencedResourceInformers *)

Section Cleanup.

(** Declared elsewhere in the package: the name of the field index and
    the function that builds the index key of a (config, kind, group,
    version). *)
Variable objectRefGVKsIndex : string.
Variable refKeyGKV : string -> string -> string -> string -> string.

Definition refKey_of (gc : gvkWithConfig) : string :=
  refKeyGKV (config gc) (Kind (gvk gc)) (Group (gvk gc)) (Version (gvk gc)).

(** The [List] call of line 192 for [gc], as the receiver answers it. *)
Definition list_referencing (ctx : Ctx) (i : referencedResourceInformers)
    (gc : gvkWithConfig) : ListResult :=
  objectsCache i ctx objectRefGVKsIndex (refKey_of gc).

(** The body reaches lines 200-202 for the entry [e]: the list it got is
    empty, whether or not the call reported an error. *)
Definition stops (ctx : Ctx) (i : referencedResourceInformers)
    (e : gvkWithConfig * cdCache) : Prop :=
  (list_referencing ctx i e.1).1 = [].

#[global] Instance stops_dec ctx i e : Decision (stops ctx i e).
Proof. unfold stops. apply _. Defined.

(** Lines 191-194: the query and the log line on error.  There is no
    [continue] after the log line. *)
Definition cleanup_query (ctx : Ctx) (gc : gvkWithConfig) (r : ListResult) : list Event :=
  EvList ctx objectRefGVKsIndex (refKey_of gc) ::
  match r.2 with
  | Some err =>
      [EvLog Debug "cannot list objects referencing a certain resource GVK"
         [("error", err);
          ("fieldSelector", objectRefGVKsIndex +:+ "=" +:+ gvkWithConfig_String gc)]]
  | None => []
  end.

(** Lines 200-202. *)
Definition cleanup_stop (gc : gvkWithConfig) (inf : cdCache) : list Event :=
  [EvCancel (cancelFn inf);
   EvLog Info "Stopped referenced resource watch" [("gc", gvkWithConfig_String gc)];
   EvDeleteCdCache gc].

(** [for gc, inf := range i.cdCaches { ... }] over the entries in the
    order the range produces them.  The body deletes only the entry it is
    visiting, so the entries still to come are those of the map at entry. *)
Fixpoint cleanup_range (ctx : Ctx) (entries : list (gvkWithConfig * cdCache))
    (i : referencedResourceInformers) : referencedResourceInformers * list Event :=
  match entries with
  | [] => (i, [])
  | (gc, inf) :: rest =>
      let r := list_referencing ctx i gc in
      if bool_decide (0 < length r.1)
      then let '(i', t) := cleanup_range ctx rest i in
           (i', cleanup_query ctx gc r ++ t)
      else let '(i', t) := cleanup_range ctx rest (set_cdCaches (delete gc) i) in
           (i', cleanup_query ctx gc r ++ cleanup_stop gc inf ++ t)
  end.

(** func (i *referencedResourceInformers) cleanupReferencedResourceInformers(ctx) *)
Definition cleanupReferencedResourceInformers (ctx : Ctx)
    (i : referencedResourceInformers) : referencedResourceInformers * list Event :=
  cleanup_range ctx (map_to_list (cdCaches i)) i.

End Cleanup.

(** ** WatchReferencedResources *)

(** The calls that leave the package: controller-runtime's [cache.New],
    [Cache.GetInformer] and the informer's [AddEventHandler].  Each reads
    and changes the outside world and may fail. *)
Class ResourceCacheAPI (World : Type) := {
  cache_New : RestConfig -> World -> (Cache + Error) * World;
  GetInformer : Cache -> Ctx -> GroupVersionKind -> World -> (Informer + Error) * World;
  AddEventHandler : Informer -> ResourceEventHandlerFuncs -> World -> option Error * World;
}.

Section Watch.

Context {World : Type} `{!ResourceCacheAPI World}.

(** The receiver, the outside world, and the number of contexts made by
    [context.WithCancel] so far (the next one's identity). *)
Record State := { this : referencedResourceInformers; world : World; ctxs : nat }.

(** State passing with an effect log. *)
Definition M (A : Type) : Type := State -> A * State * list Event.

#[local] Instance M_ret : MRet M := fun A a s => (a, s, []).

#[local] Instance M_bind : MBind M := fun A B k m s =>
  let '(a, s1, t1) := m s in
  let '(b, s2, t2) := k a s1 in
  (b, s2, t1 ++ t2).

Definition emit (e : Event) : M unit := fun s => (tt, s, [e]).

Definition receiver : M referencedResourceInformers := fun s => (this s, s, []).

Definition call_cache_New (cfg : RestConfig) : M (Cache + Error) := fun s =>
  let '(r, w) := cache_New cfg (world s) in
  (r, {| this := this s; world := w; ctxs := ctxs s |}, [EvCacheNew cfg]).

Definition WithCancel : M Ctx := fun s =>
  (ctxs s, {| this := this s; world := world s; ctxs := S (ctxs s) |},
   [EvWithCancel (ctxs s)]).

Definition call_GetInformer (ca : Cache) (c : Ctx) (g : GroupVersionKind)
    : M (Informer + Error) := fun s =>
  let '(r, w) := GetInformer ca c g (world s) in
  (r, {| this := this s; world := w; ctxs := ctxs s |}, [EvGetInformer ca c g]).

Definition call_AddEventHandler (inf : Informer) (h : ResourceEventHandlerFuncs)
    : M (option Error) := fun s =>
  let '(r, w) := AddEventHandler inf h (world s) in
  (r, {| this := this s; world := w; ctxs := ctxs s |}, [EvAddEventHandler inf h]).

Definition store_cdCache (gc : gvkWithConfig) (v : cdCache) : M unit := fun s =>
  (tt, {| this := set_cdCaches (insert gc v) (this s); world := world s; ctxs := ctxs s |},
   [EvSetCdCache gc]).

(** [if cluster == nil { cluster = i.cluster }] (lines 113-116): the
    value of the local variable after it. *)
Definition resolve_cluster (cl : option Cluster) (i : referencedResourceInformers)
    : Cluster :=
  match cl with Some c => c | None => cluster i end.

(** The key-value pairs of a failure's log line: those of
    [i.log.WithValues] (line 111) and the error. *)
Definition log_kv (gc : gvkWithConfig) (err : Error) : list (string * string) :=
  [("config", config gc); ("gvk", GroupVersionKind_String (gvk gc)); ("error", err)].

(** One pass through the body of [for _, gc := range gcs] (lines 107-179).
    The argument and the result are the local variable [cluster], which
    the body assigns when it is nil; every [continue] is a [mret]. *)
Definition WatchReferencedResources_body (cl : option Cluster) (gc : gvkWithConfig)
    : M (option Cluster) :=
  i ← receiver;
  match cdCaches i !! gc with
  | Some _ => mret cl
  | None =>
      let cl' := resolve_cluster cl i in
      r ← call_cache_New (GetConfig cl');
      match r with
      | inr err =>
          emit (EvLog Debug "failed creating a cache" (log_kv gc err));;
          mret (Some cl')
      | inl ca =>
          ctx ← WithCancel;
          r ← call_GetInformer ca ctx (gvk gc);
          match r with
          | inr err =>
              emit (EvCancel ctx);;
              emit (EvLog Debug "failed getting informer" (log_kv gc err));;
              mret (Some cl')
          | inl inf =>
              r ← call_AddEventHandler inf WatchReferencedResources_handler;
              match r with
              | Some err =>
                  emit (EvCancel ctx);;
                  emit (EvLog Debug "failed adding event handler" (log_kv gc err));;
                  mret (Some cl')
              | None =>
                  emit (EvGo (GoCacheStart ca ctx));;
                  store_cdCache gc {| cache := ca; cancelFn := ctx |};;
                  emit (EvGo (GoWaitForCacheSync ca ctx));;
                  mret (Some cl')
              end
          end
      end
  end.

(** The pass for [gc] from state [s] meets a failure: [cache.New] fails,
    or it succeeds and [GetInformer] fails, or both succeed and
    [AddEventHandler] fails. *)
Definition construction_fails (cl : option Cluster) (gc : gvkWithConfig) (s : State)
    : Prop :=
  let cfg := GetConfig (resolve_cluster cl (this s)) in
  (exists err w, cache_New cfg (world s) = (inr err, w)) \/
  (exists ca w1 err w2,
     cache_New cfg (world s) = (inl ca, w1) /\
     GetInformer ca (ctxs s) (gvk gc) w1 = (inr err, w2)) \/
  (exists ca w1 inf w2 err w3,
     cache_New cfg (world s) = (inl ca, w1) /\
     GetInformer ca (ctxs s) (gvk gc) w1 = (inl inf, w2) /\
     AddEventHandler inf WatchReferencedResources_handler w2 = (Some err, w3)).

(** [for _, gc := range gcs { ... }] *)
Fixpoint WatchReferencedResources_range (cl : option Cluster) (gcs : list gvkWithConfig)
    : M unit :=
  match gcs with
  | [] => mret tt
  | gc :: rest =>
      cl' ← WatchReferencedResources_body cl gc;
      WatchReferencedResources_range cl' rest
  end.

(** func (i *referencedResourceInformers) WatchReferencedResources(cluster, gcs...) *)
Definition WatchReferencedResources (cl : option Cluster) (gcs : list gvkWithConfig)
    : M unit :=
  emit EvRLock;;
  WatchReferencedResources_range cl gcs;;
  emit EvRUnlock.

End Watch.

Arguments State : clear implicits.
Arguments M : clear implicits.

(** ** Sequences of calls *)

(** The entry points of the type, with their arguments.  [OpStart] carries
    the identity that [uuid.New] returns in that call; [OpCtxDone id] is the
    goroutine of the [Start] call that stored [id], once its context is
    done. *)
Inductive Op :=
| OpStart (ctx : Ctx) (h : EventHandler) (q : Queue) (ps : list Predicate) (id : string)
| OpCtxDone (id : string)
| OpWatch (cl : option Cluster) (gcs : list gvkWithConfig)
| OpCleanup (ctx : Ctx).

Definition is_cleanup (o : Op) : bool :=
  match o with OpCleanup _ => true | _ => false end.

Definition starts (id : string) (o : Op) : bool :=
  match o with OpStart _ _ _ _ id' => bool_decide (id' = id) | _ => false end.

(** The same call with [gc] struck from the keys it declares. *)
Definition without (gc : gvkWithConfig) (o : Op) : Op :=
  match o with
  | OpWatch cl gcs => OpWatch cl (filter (fun g => g ≠ gc) gcs)
  | _ => o
  end.

Section Operations.

Variable objectRefGVKsIndex : string.
Variable refKeyGKV : string -> string -> string -> string -> string.
Context {World : Type} `{!ResourceCacheAPI World}.

Definition with_this (s : State World) (i : referencedResourceInformers) : State World :=
  {| this := i; world := world s; ctxs := ctxs s |}.

Definition run_op (o : Op) (s : State World) : State World * list Event :=
  match o with
  | OpStart ctx h q ps id =>
      let '(_, i, t) := Start ctx h q ps id (this s) in (with_this s i, t)
  | OpCtxDone id =>
      let '(i, t) := Start_ctxDone id (this s) in (with_this s i, t)
  | OpWatch cl gcs =>
      let '(_, s', t) := WatchReferencedResources cl gcs s in (s', t)
  | OpCleanup ctx =>
      let '(i, t) :=
        cleanupReferencedResourceInformers objectRefGVKsIndex refKeyGKV ctx (this s) in
      (with_this s i, t)
  end.

(** The calls one after the other, none overlapping another. *)
Fixpoint run_ops (os : list Op) (s : State World) : State World * list Event :=
  match os with
  | [] => (s, [])
  | o :: rest =>
      let '(s1, t1) := run_op o s in
      let '(s2, t2) := run_ops rest s1 in
      (s2, t1 ++ t2)
  end.

End Operations.

(** ** Reading effect logs *)

(** The calls of [sinks[id]] in a handler's log: event and what the call did. *)
Definition sink_calls (id : string) (t : list Notification)
    : list (UpdateEvent * list SinkEvent) :=
  omap (fun n => match n with
                 | NSink id' ev eff => if decide (id' = id) then Some (ev, eff) else None
                 | _ => None
                 end) t.

(** The calls of the terminal handler in what a sink did. *)
Definition handler_calls (t : list SinkEvent) : list (EventHandler * Ctx * UpdateEvent * Queue) :=
  omap (fun e => match e with
                 | EvHandlerUpdate h ctx ev q => Some (h, ctx, ev, q)
                 | _ => None
                 end) t.

(** The contexts cancelled in a log, in order. *)
Definition cancels (t : list Event) : list Ctx :=
  omap (fun e => match e with EvCancel c => Some c | _ => None end) t.

(** How many times [c] was cancelled in a log. *)
Definition cancel_count (c : Ctx) (t : list Event) : nat :=
  length (filter (fun c' => c' = c) (cancels t)).

(** The keys written into [cdCaches] in a log, in order. *)
Definition cdCache_sets (t : list Event) : list gvkWithConfig :=
  omap (fun e => match e with EvSetCdCache gc => Some gc | _ => None end) t.

(** The goroutines started in a log. *)
Definition spawned (t : list Event) : list Goroutine :=
  omap (fun e => match e with EvGo g => Some g | _ => None end) t.

(** The handlers registered in a log. *)
Definition registered_handlers (t : list Event) : list ResourceEventHandlerFuncs :=
  omap (fun e => match e with EvAddEventHandler _ h => Some h | _ => None end) t.

(** [c] is created in the log and cancelled later in it. *)
Definition cancelled_after_creation (c : Ctx) (t : list Event) : Prop :=
  exists t1 t2, t = t1 ++ EvWithCancel c :: t2 /\ c ∈ cancels t2.

(** ** The lock as one goroutine sees it *)

Inductive LockMode := Unlocked | ReadLocked | WriteLocked.

Definition is_mutation (e : Event) : bool :=
  match e with
  | EvSetSink _ | EvDeleteSink _ | EvSetCdCache _ | EvDeleteCdCache _ => true
  | _ => false
  end.

(** Every write to [sinks] or [cdCaches] in a log, with the mode in which
    the goroutine holds [i.lock] at that point; [m] is the mode at entry. *)
Fixpoint lock_at_mutations (m : LockMode) (t : list Event) : list (Event * LockMode) :=
  match t with
  | [] => []
  | EvLock :: t' => lock_at_mutations WriteLocked t'
  | EvRLock :: t' => lock_at_mutations ReadLocked t'
  | EvUnlock :: t' => lock_at_mutations Unlocked t'
  | EvRUnlock :: t' => lock_at_mutations Unlocked t'
  | e :: t' =>
      if is_mutation e then (e, m) :: lock_at_mutations m t'
      else lock_at_mutations m t'
  end.

(** The mode in which the goroutine holds the lock after a log. *)
Fixpoint mode_after (m : LockMode) (t : list Event) : LockMode :=
  match t with
  | [] => m
  | EvLock :: t' => mode_after WriteLocked t'
  | EvRLock :: t' => mode_after ReadLocked t'
  | EvUnlock :: t' => mode_after Unlocked t'
  | EvRUnlock :: t' => mode_after Unlocked t'
  | _ :: t' => mode_after m t'
  end.

Definition mutations_hold_write_lock (t : list Event) : bool :=
  forallb (fun em => match em.2 with WriteLocked => true | _ => false end)
          (lock_at_mutations Unlocked t).

(** ** Invariant: sessions own distinct contexts *)

Definition cancelFns_distinct (i : referencedResourceInformers) : Prop :=
  forall gc1 gc2 s1 s2,
    cdCaches i !! gc1 = Some s1 -> cdCaches i !! gc2 = Some s2 ->
    cancelFn s1 = cancelFn s2 -> gc1 = gc2.

Definition cancelFns_allocated {World : Type} (s : State World) : Prop :=
  forall gc se, cdCaches (this s) !! gc = Some se -> cancelFn se < ctxs s.

Definition wf_state {World : Type} (s : State World) : Prop :=
  cancelFns_distinct (this s) /\ cancelFns_allocated s.

(** ** The ways through the loop body of [WatchReferencedResources] *)

Section Outcomes.

Context {World : Type} `{!ResourceCacheAPI World}.

(** What a pass for [gc] from [s] can have done: found the key present and
  done nothing; met a failure and left the receiver as it was; or
  registered a session under the next fresh context. *)
Inductive body_outcome (cl : option Cluster) (gc : gvkWithConfig) (s : State World)
  : option Cluster * State World * list Event -> Prop :=
| outcome_present se :
  cdCaches (this s) !! gc = Some se ->
  body_outcome cl gc s (cl, s, [])
| outcome_failed w n t :
  cdCaches (this s) !! gc = None ->
  construction_fails cl gc s ->
  ctxs s <= n ->
  cdCache_sets t = [] ->
  spawned t = [] ->
  (forall m, lock_at_mutations m t = [] /\ mode_after m t = m) ->
  (forall h, h ∈ registered_handlers t -> h = WatchReferencedResources_handler) ->
  (forall c, EvWithCancel c ∈ t -> cancelled_after_creation c t) ->
  body_outcome cl gc s
    (Some (resolve_cluster cl (this s)), {| this := this s; world := w; ctxs := n |}, t)
| outcome_registered ca w t :
  cdCaches (this s) !! gc = None ->
  cdCache_sets t = [gc] ->
  (forall m, lock_at_mutations m t = [(EvSetCdCache gc, m)] /\ mode_after m t = m) ->
  (forall h, h ∈ registered_handlers t -> h = WatchReferencedResources_handler) ->
  body_outcome cl gc s
    (Some (resolve_cluster cl (this s)),
     {| this := set_cdCaches (insert gc {| cache := ca; cancelFn := ctxs s |}) (this s);
        world := w; ctxs := S (ctxs s) |}, t).

End Outcomes.

(** ** A scripted outside world

    The world is the list of answers still to be given; each call that
    leaves the package takes the next one. *)

Inductive Answer := Ok (id : nat) | Fail (err : Error).

Definition next_answer (w : list Answer) : (nat + Error) * list Answer :=
  match w with
  | Ok n :: w' => (inl n, w')
  | Fail e :: w' => (inr e, w')
  | [] => (inr "no answer", [])
  end.

#[global] Instance scripted_world : ResourceCacheAPI (list Answer) := {|
  cache_New := fun _ w => next_answer w;
  GetInformer := fun _ _ _ w => next_answer w;
  AddEventHandler := fun _ _ w =>
    match next_answer w with
    | (inl _, w') => (None, w')
    | (inr e, w') => (Some e, w')
    end;
|}.

(** Sample data. *)
Definition gcA : gvkWithConfig :=
  {| config := "default"; gvk := {| Group := "apps"; Version := "v1"; Kind := "Deployment" |} |}.
Definition gcB : gvkWithConfig :=
  {| config := "default"; gvk := {| Group := ""; Version := "v1"; Kind := "ConfigMap" |} |}.

Definition sample_refKeyGKV (c k g v : string) : string :=
  c +:+ "." +:+ k +:+ "." +:+ g +:+ "." +:+ v.

Definition controlPlane : Cluster := {| GetConfig := "in-cluster" |}.

Definition empty_informers (idx : Ctx -> string -> string -> ListResult)
    : referencedResourceInformers :=
  {| cluster := controlPlane; cdCaches := ∅; objectsCache := idx; sinks := ∅ |}.

Definition initial_state (idx : Ctx -> string -> string -> ListResult) (w : list Answer)
    : State (list Answer) :=
  {| this := empty_informers idx; world := w; ctxs := 0 |}.

Definition no_referencers : Ctx -> string -> string -> ListResult := fun _ _ _ => ([], None).

Definition always (b : bool) : Predicate :=
  {| predicateName := if b then "always-true" else "always-false"; Update := fun _ => b |}.

Definition obj_v1 : Object := {| GetName := "cm"; GetResourceVersion := "1" |}.
Definition obj_v2 : Object := {| GetName := "cm"; GetResourceVersion := "2" |}.
Definition ev_v1_v2 : UpdateEvent := {| ObjectOld := obj_v1; ObjectNew := obj_v2 |}.

(** The reference index of the scenario "A has one referencer, B has
    none": every query succeeds. *)
Definition sample_index : Ctx -> string -> string -> ListResult := fun _ _ value =>
  if String.eqb value (sample_refKeyGKV "default" "Deployment" "apps" "v1")
  then ([obj_v1], None)
  else ([], None).

(** A reference index that cannot be reached: every query fails and
    leaves the list as it was made, empty. *)
Definition unreachable_index : Ctx -> string -> string -> ListResult := fun _ _ _ =>
  ([], Some "index unavailable").

(** Both sample keys declared against a world in which every call
    succeeds. *)
Definition all_succeed : list Answer := [Ok 10; Ok 11; Ok 12; Ok 20; Ok 21; Ok 22].

Definition declare_A_B (idx : Ctx -> string -> string -> ListResult)
    : State (list Answer) :=
  (WatchReferencedResources None [gcA; gcB] (initial_state idx all_succeed)).1.2.

Definition session_A : cdCache := {| cache := 10; cancelFn := 0 |}.
Definition session_B : cdCache := {| cache := 20; cancelFn := 1 |}.

(** Two subscribers: "s1" filters with a predicate that always accepts,
    "s2" with one that always rejects. *)
Definition two_subscribers : referencedResourceInformers :=
  (Start 2 "h2" "q2" [always false] "s2"
     (Start 1 "h1" "q1" [always true] "s1" (empty_informers no_referencers)).1.2).1.2.

(** A world in which the first [GetInformer] fails and every later call
    succeeds. *)
Definition informer_fails_once : list Answer :=
  [Ok 10; Fail "no informer"; Ok 20; Ok 21; Ok 22].

(** ** parseAPIVersion *)

(** The slice [s[:n]] of a byte string; Go panics when [n] is past the end,
    which does not happen below. *)
Fixpoint slice_to (n : nat) (s : string) : string :=
  match n, s with
  | S n', String c s' => String c (slice_to n' s')
  | _, _ => ""
  end.

(** The slice [s[n:]]. *)
Fixpoint slice_from (n : nat) (s : string) : string :=
  match n, s with
  | S n', String _ s' => slice_from n' s'
  | _, _ => s
  end.

(** strings.Index: the byte offset of the first occurrence of [sep] in [s];
    [None] stands for Go's -1. *)
Fixpoint Index (s sep : string) : option nat :=
  if String.prefix sep s then Some 0
  else match s with
       | EmptyString => None
       | String _ s' => S <$> Index s' sep
       end.

(** The loop of strings.genSplit with [sepSave = 0]: [fuel] is the number
    of cuts still allowed ([n - 1 - i]); the result is [a[:i+1]]. *)
Fixpoint genSplit_loop (fuel : nat) (s sep : string) : list string :=
  match fuel with
  | 0 => [s]
  | S fuel' =>
      match Index s sep with
      | None => [s]
      | Some m => slice_to m s :: genSplit_loop fuel' (slice_from (m + String.length sep) s) sep
      end
  end.

(** strings.SplitN for a count [n >= 0] and a separator that is not empty
    (the call in [parseAPIVersion] passes "/" and 2; the branch of genSplit
    for an empty separator, which cuts between UTF-8 sequences, and the one
    for a negative count are not represented). *)
Definition SplitN (s sep : string) (n : nat) : list string :=
  match n with
  | 0 => []
  | S _ => genSplit_loop (Nat.min n (String.length s + 1) - 1) s sep
  end.

(** func parseAPIVersion(v string) (string, string) *)
Definition parseAPIVersion (v : string) : string * string :=
  match SplitN v "/" 2 with
  | [p0] => ("", p0)
  | [p0; p1] => (p0, p1)
  | _ => ("", "")
  end.

(** ** More readers of effect logs *)

(** The contexts made by [context.WithCancel] in a log, in order. *)
Definition created (t : list Event) : list Ctx :=
  omap (fun e => match e with EvWithCancel c => Some c | _ => None end) t.

(** The configurations [cache.New] was called with in a log. *)
Definition cacheNew_configs (t : list Event) : list RestConfig :=
  omap (fun e => match e with EvCacheNew cfg => Some cfg | _ => None end) t.

(** The keys deleted from [cdCaches] in a log, in order. *)
Definition cdCache_deletes (t : list Event) : list gvkWithConfig :=
  omap (fun e => match e with EvDeleteCdCache gc => Some gc | _ => None end) t.

(** The [List] calls in a log: context, field and value. *)
Definition list_queries (t : list Event) : list (Ctx * string * string) :=
  omap (fun e => match e with EvList ctx f v => Some (ctx, f, v) | _ => None end) t.

(** [Start] or the goroutine it leaves behind. *)
Definition is_subscription (o : Op) : bool :=
  match o with OpStart _ _ _ _ _ | OpCtxDone _ => true | _ => false end.

(** ** What one goroutine holds of [i.lock]

    sync.RWMutex as the goroutine that runs a method meets it: how many
    read locks the goroutine holds and whether it holds the write lock. *)
Record LockState := { readers : nat; writer : bool }.

Definition unheld : LockState := {| readers := 0; writer := false |}.

(** One event of a log.  [None] is a misuse the run does not survive:
    [Unlock] of a lock not held for writing and [RUnlock] of a lock not
    held for reading are fatal errors, and [Lock] or [RLock] by a goroutine
    that already holds the write lock, or [Lock] by one that holds a read
    lock, blocks for ever. *)
Definition lock_step (st : LockState) (e : Event) : option LockState :=
  match e with
  | EvLock =>
      if writer st || bool_decide (0 < readers st) then None
      else Some {| readers := 0; writer := true |}
  | EvUnlock =>
      if writer st then Some {| readers := readers st; writer := false |} else None
  | EvRLock =>
      if writer st then None
      else Some {| readers := S (readers st); writer := false |}
  | EvRUnlock =>
      match readers st with
      | 0 => None
      | S n => Some {| readers := n; writer := writer st |}
      end
  | _ => Some st
  end.

(** A whole log, from what the goroutine holds at its start. *)
Fixpoint lock_run (st : LockState) (t : list Event) : option LockState :=
  match t with
  | [] => Some st
  | e :: t' =>
      match lock_step st e with
      | Some st' => lock_run st' t'
      | None => None
      end
  end.

(** The lock operations of a log, in order. *)
Definition lock_ops (t : list Event) : list Event :=
  omap (fun e => match e with
                 | EvLock | EvUnlock | EvRLock | EvRUnlock => Some e
                 | _ => None
                 end) t.

Section ContextUse.

Context {World : Type} `{!ResourceCacheAPI World}.

(** What a pass does with contexts: it makes none; or it makes the next
    one and cancels it, leaving the receiver alone; or it makes the next
    one and stores it, uncancelled, as the new session of [gc]. *)
Inductive context_use (cl : option Cluster) (gc : gvkWithConfig) (s : State World)
    : option Cluster * State World * list Event -> Prop :=
| use_none cl' s' t :
    this s' = this s -> ctxs s' = ctxs s ->
    created t = [] -> cancels t = [] -> cdCache_sets t = [] ->
    context_use cl gc s (cl', s', t)
| use_cancelled cl' s' t :
    this s' = this s -> ctxs s' = S (ctxs s) ->
    created t = [ctxs s] -> cancels t = [ctxs s] -> cdCache_sets t = [] ->
    context_use cl gc s (cl', s', t)
| use_stored cl' s' t ca :
    cdCaches (this s) !! gc = None ->
    this s' = set_cdCaches (insert gc {| cache := ca; cancelFn := ctxs s |}) (this s) ->
    ctxs s' = S (ctxs s) ->
    created t = [ctxs s] -> cancels t = [] -> cdCache_sets t = [gc] ->
    context_use cl gc s (cl', s', t).

End ContextUse.

(** A reference index that answers the query for the first sample key with
    an error and a list that already holds one object, and every other
    query with an empty list and no error. *)
Definition partial_index : Ctx -> string -> string -> ListResult := fun _ _ value =>
  if String.eqb value (sample_refKeyGKV "default" "Deployment" "apps" "v1")
  then ([obj_v1], Some "context deadline exceeded")
  else ([], None).

(** A cluster other than the control plane, to pass as the override. *)
Definition remoteCluster : Cluster := {| GetConfig := "remote-kubeconfig" |}.

(** The two sample subscribers, no session yet, and a world in which every
    call succeeds. *)
Definition subscribed_state : State (list Answer) :=
  {| this := two_subscribers; world := all_succeed; ctxs := 0 |}.

(** * Properties *)

(** ** Start and the stored closure *)

Lemma range_predicates_all_accept ps ev :
  Forall (accepts ev) ps ->
  range_predicates ps ev = (true, map (fun p => EvPredicateUpdate p ev) ps).
Proof.
  induction 1 as [|p ps Hp _ IH]; simpl; [done|].
  unfold accepts in Hp. by rewrite Hp, IH.
Qed.

Lemma range_predicates_first_reject l1 p l2 ev :
  Forall (accepts ev) l1 -> Update p ev = false ->
  range_predicates (l1 ++ p :: l2) ev
  = (false, map (fun p' => EvPredicateUpdate p' ev) (l1 ++ [p])).
Proof.
  intros Hl1 Hp. induction Hl1 as [|p1 l1 Hp1 _ IH]; simpl.
  - by rewrite Hp.
  - unfold accepts in Hp1. by rewrite Hp1, IH.
Qed.

Lemma range_predicates_done ps ev :
  (range_predicates ps ev).1 = forallb (fun p => Update p ev) ps.
Proof.
  induction ps as [|p ps IH]; simpl; [done|].
  destruct (Update p ev); simpl; [|done].
  destruct (range_predicates ps ev); simpl in *. done.
Qed.

Lemma handler_calls_predicates ps ev :
  handler_calls (range_predicates ps ev).2 = [].
Proof.
  induction ps as [|p ps IH]; simpl; [done|].
  destruct (Update p ev); simpl; [|done].
  destruct (range_predicates ps ev); simpl in *. done.
Qed.

Lemma Start_sink_handler_calls ctx h q ps ev :
  handler_calls (Start_sink ctx h q ps ev)
  = if forallb (fun p => Update p ev) ps then [(h, ctx, ev, q)] else [].
Proof.
  unfold Start_sink.
  pose proof (range_predicates_done ps ev) as Hd.
  pose proof (handler_calls_predicates ps ev) as Hh.
  destruct (range_predicates ps ev) as [d t]; simpl in *; subst d.
  destruct (forallb _ ps); [|done].
  unfold handler_calls in *. by rewrite omap_app, Hh.
Qed.

(** C9: [Start] always registers and returns a nil error.  Whatever the
    context, handler, queue and predicates and whatever the state of the
    receiver, the error returned is nil; afterwards [sinks] holds, under
    the identity drawn, the closure built from those arguments; every other
    entry of [sinks] is as it was; and the only goroutine started is the
    one that waits for the context to remove that entry. *)
Theorem Start_registers_and_returns_nil ctx h q ps id i :
  (Start ctx h q ps id i).1.1 = None /\
  sinks (Start ctx h q ps id i).1.2 !! id = Some (Start_sink ctx h q ps) /\
  (forall id', id' ≠ id ->
     sinks (Start ctx h q ps id i).1.2 !! id' = sinks i !! id') /\
  spawned (Start ctx h q ps id i).2 = [GoUnsubscribe ctx id].
Proof.
  split; [reflexivity|]. split; [|split].
  - simpl. apply lookup_insert_eq.
  - intros id' Hne. simpl. by rewrite lookup_insert_ne.
  - reflexivity.
Qed.

(** C7: the closure that [Start] stores under its fresh identity evaluates
    the predicates of [ps] in list order.  When all of them accept the
    event it has evaluated each once, in order, and then called
    [h.Update(ctx, ev, q)]; when [p] is the first that rejects it has
    evaluated the predicates up to and including [p] and nothing else: no
    later predicate and not the handler.  The handler is called exactly
    when every predicate accepts. *)
Theorem Start_sink_predicate_chain ctx h q ps id i :
  exists f,
    sinks (Start ctx h q ps id i).1.2 !! id = Some f /\
    forall ev,
      (Forall (accepts ev) ps ->
         f ev = map (fun p => EvPredicateUpdate p ev) ps ++ [EvHandlerUpdate h ctx ev q]) /\
      (forall l1 p l2,
         ps = l1 ++ p :: l2 -> Forall (accepts ev) l1 -> Update p ev = false ->
         f ev = map (fun p' => EvPredicateUpdate p' ev) (l1 ++ [p])) /\
      handler_calls (f ev)
      = if forallb (fun p => Update p ev) ps then [(h, ctx, ev, q)] else [].
Proof.
  exists (Start_sink ctx h q ps). split.
  - simpl. apply lookup_insert_eq.
  - intros ev. split; [|split].
    + intros Hall. unfold Start_sink.
      by rewrite (range_predicates_all_accept _ _ Hall).
    + intros l1 p l2 -> Hl1 Hp. unfold Start_sink.
      by rewrite (range_predicates_first_reject _ _ _ _ Hl1 Hp).
    + apply Start_sink_handler_calls.
Qed.

(** ** Fan-out *)

Lemma sink_calls_app id t1 t2 :
  sink_calls id (t1 ++ t2) = sink_calls id t1 ++ sink_calls id t2.
Proof. apply omap_app. Qed.

Lemma sink_calls_range_absent id entries ev :
  id ∉ entries.*1 -> sink_calls id (range_sinks entries ev) = [].
Proof.
  induction entries as [|[id' f'] entries IH]; simpl; [done|].
  rewrite not_elem_of_cons. intros [Hne Hnotin].
  rewrite decide_False by done. by apply IH.
Qed.

Lemma sink_calls_range_present id f entries ev :
  NoDup entries.*1 -> (id, f) ∈ entries ->
  sink_calls id (range_sinks entries ev) = [(ev, f ev)].
Proof.
  induction entries as [|[id' f'] entries IH]; simpl.
  - intros _ Hin. by apply elem_of_nil in Hin.
  - rewrite NoDup_cons. intros [Hfresh Hnd] Hin.
    apply elem_of_cons in Hin as [Heq | Hin].
    + injection Heq as <- <-. rewrite decide_True by done.
      by rewrite (sink_calls_range_absent _ _ _ Hfresh).
    + assert (id' ≠ id) as Hne.
      { intros ->. apply Hfresh. apply list_elem_of_fmap. by exists (id, f). }
      rewrite decide_False by done. by apply IH.
Qed.

Lemma UpdateFunc_sink_calls oldObj newObj i id :
  GetResourceVersion oldObj ≠ GetResourceVersion newObj ->
  sink_calls id (WatchReferencedResources_UpdateFunc oldObj newObj i)
  = match sinks i !! id with
    | Some f => [({| ObjectOld := oldObj; ObjectNew := newObj |},
                  f {| ObjectOld := oldObj; ObjectNew := newObj |})]
    | None => []
    end.
Proof.
  intros Hrv. unfold WatchReferencedResources_UpdateFunc.
  apply String.eqb_neq in Hrv. rewrite Hrv.
  rewrite !sink_calls_app. simpl. rewrite app_nil_r.
  destruct (sinks i !! id) as [f|] eqn:Hlk.
  - apply sink_calls_range_present.
    + apply NoDup_fst_map_to_list.
    + by apply elem_of_map_to_list.
  - apply sink_calls_range_absent.
    intros Hin. apply list_elem_of_fmap in Hin as ([id' f] & -> & Hin).
    apply elem_of_map_to_list in Hin. simpl in Hlk. congruence.
Qed.

Lemma UpdateFunc_absent_never_called oldObj newObj i id :
  sinks i !! id = None ->
  sink_calls id (WatchReferencedResources_UpdateFunc oldObj newObj i) = [].
Proof.
  intros Hnone.
  destruct (decide (GetResourceVersion oldObj = GetResourceVersion newObj)) as [Heq|Hne].
  - unfold WatchReferencedResources_UpdateFunc.
    apply String.eqb_eq in Heq. by rewrite Heq.
  - by rewrite (UpdateFunc_sink_calls _ _ _ _ Hne), Hnone.
Qed.

(** C3: a pair with equal resource versions makes the handler do nothing
    at all, so no entry of [sinks] is called; a pair with different
    resource versions makes it call every entry of [sinks] exactly once,
    with that pair, and nothing that is not in [sinks]. *)
Theorem UpdateFunc_fans_out_once oldObj newObj i :
  (GetResourceVersion oldObj = GetResourceVersion newObj ->
     WatchReferencedResources_UpdateFunc oldObj newObj i = []) /\
  (GetResourceVersion oldObj ≠ GetResourceVersion newObj ->
     forall id,
       sink_calls id (WatchReferencedResources_UpdateFunc oldObj newObj i)
       = match sinks i !! id with
         | Some f => [({| ObjectOld := oldObj; ObjectNew := newObj |},
                       f {| ObjectOld := oldObj; ObjectNew := newObj |})]
         | None => []
         end).
Proof.
  split.
  - intros Heq. unfold WatchReferencedResources_UpdateFunc.
    apply String.eqb_eq in Heq. by rewrite Heq.
  - intros Hne id. by apply UpdateFunc_sink_calls.
Qed.

(** ** Unsubscribing *)

(** C8: when the context of the subscriber stored under [id] is done, the
    goroutine removes the entry [id] of [sinks]; every other entry of
    [sinks] and the whole of [cdCaches] are as before; and a notification
    handled in the resulting state never calls the removed entry. *)
Theorem Start_ctxDone_removes_only_its_sink id i :
  let i' := (Start_ctxDone id i).1 in
  sinks i' !! id = None /\
  (forall id', id' ≠ id -> sinks i' !! id' = sinks i !! id') /\
  cdCaches i' = cdCaches i /\
  forall oldObj newObj,
    sink_calls id (WatchReferencedResources_UpdateFunc oldObj newObj i') = [].
Proof.
  simpl. split; [|split; [|split]].
  - apply lookup_delete_eq.
  - intros id' Hne. by apply lookup_delete_ne.
  - reflexivity.
  - intros oldObj newObj. apply UpdateFunc_absent_never_called.
    simpl. apply lookup_delete_eq.
Qed.

(** ** The sweep *)

Lemma filter_eq_absent {A} `{EqDecision A} (x : A) (l : list A) :
  x ∉ l -> length (filter (fun y => y = x) l) = 0.
Proof.
  induction l as [|y l IH]; [done|].
  rewrite not_elem_of_cons. intros [Hne Hnotin].
  rewrite filter_cons_False by done. by apply IH.
Qed.

Lemma filter_eq_NoDup_present {A} `{EqDecision A} (x : A) (l : list A) :
  NoDup l -> x ∈ l -> length (filter (fun y => y = x) l) = 1.
Proof.
  induction 1 as [|y l Hy Hnd IH]; intros Hin.
  - by apply elem_of_nil in Hin.
  - destruct (decide (y = x)) as [->|Hne].
    + rewrite filter_cons_True by done. simpl. f_equal. by apply filter_eq_absent.
    + rewrite filter_cons_False by done.
      apply elem_of_cons in Hin as [->|Hin]; [done|]. by apply IH.
Qed.

Lemma lock_at_mutations_app m t1 t2 :
lock_at_mutations m (t1 ++ t2)
= lock_at_mutations m t1 ++ lock_at_mutations (mode_after m t1) t2.
Proof.
revert m. induction t1 as [|e t1 IH]; intros m; [done|].
destruct e; simpl; rewrite ?IH; done.
Qed.

Lemma mode_after_app m t1 t2 :
mode_after m (t1 ++ t2) = mode_after (mode_after m t1) t2.
Proof.
revert m. induction t1 as [|e t1 IH]; intros m; [done|].
destruct e; simpl; rewrite ?IH; done.
Qed.

Section CleanupProperties.

Variable objectRefGVKsIndex : string.
Variable refKeyGKV : string -> string -> string -> string -> string.

Local Abbreviation query := (list_referencing objectRefGVKsIndex refKeyGKV).
Local Abbreviation sweep_range := (cleanup_range objectRefGVKsIndex refKeyGKV).
Local Abbreviation stopped := (stops objectRefGVKsIndex refKeyGKV).
Local Abbreviation sweep :=
  (cleanupReferencedResourceInformers objectRefGVKsIndex refKeyGKV).

Lemma stops_iff ctx i gc se :
  bool_decide (0 < length (query ctx i gc).1) = false <-> stopped ctx i (gc, se).
Proof.
  unfold stops. simpl. rewrite bool_decide_eq_false.
  destruct (query ctx i gc).1; simpl; split; try done; lia.
Qed.

Lemma cleanup_range_frame ctx l i :
  objectsCache (sweep_range ctx l i).1 = objectsCache i /\
  sinks (sweep_range ctx l i).1 = sinks i /\
  cluster (sweep_range ctx l i).1 = cluster i.
Proof.
  revert i. induction l as [|[gc se] l IH]; intros i; simpl; [done|].
  destruct (bool_decide _).
  - specialize (IH i). by destruct (sweep_range ctx l i).
  - specialize (IH (set_cdCaches (delete gc) i)).
    by destruct (sweep_range ctx l (set_cdCaches (delete gc) i)).
Qed.

Lemma cleanup_range_lookup ctx l i gc :
  cdCaches (sweep_range ctx l i).1 !! gc
  = if decide (gc ∈ (filter (stopped ctx i) l).*1) then None else cdCaches i !! gc.
Proof.
  revert i. induction l as [|[gc' se] l IH]; intros i.
  - cbn [cleanup_range fst]. rewrite filter_nil, fmap_nil.
    rewrite decide_False; [done|]. apply not_elem_of_nil.
  - cbn [cleanup_range].
    destruct (bool_decide (0 < length (query ctx i gc').1)) eqn:Hb.
    + rewrite filter_cons_False.
      2:{ intros Hs. apply (stops_iff ctx i gc' se) in Hs. congruence. }
      specialize (IH i). by destruct (sweep_range ctx l i).
    + apply (stops_iff ctx i gc' se) in Hb. rewrite filter_cons_True by done.
      specialize (IH (set_cdCaches (delete gc') i)).
      destruct (sweep_range ctx l (set_cdCaches (delete gc') i)) as [i' t].
      cbn [fst] in *. rewrite IH. clear IH.
      change (filter (stopped ctx (set_cdCaches (delete gc') i)) l)
        with (filter (stopped ctx i) l).
      rewrite fmap_cons. cbn [fst set_cdCaches cdCaches].
      destruct (decide (gc = gc')) as [->|Hne].
      * rewrite (decide_True (P := gc' ∈ gc' :: _)) by (apply elem_of_cons; by left).
        rewrite lookup_delete_eq. by case_decide.
      * rewrite lookup_delete_ne by done.
        apply decide_ext. rewrite elem_of_cons. tauto.
Qed.

Lemma cancels_app t1 t2 : cancels (t1 ++ t2) = cancels t1 ++ cancels t2.
Proof. apply omap_app. Qed.

Lemma cancels_cleanup_query ctx gc r :
  cancels (cleanup_query objectRefGVKsIndex refKeyGKV ctx gc r) = [].
Proof. unfold cleanup_query. by destruct r.2. Qed.

Lemma cleanup_range_cancels ctx l i :
  cancels (sweep_range ctx l i).2 = (cancelFn ∘ snd) <$> filter (stopped ctx i) l.
Proof.
  revert i. induction l as [|[gc se] l IH]; intros i; [done|].
  cbn [cleanup_range].
  destruct (bool_decide (0 < length (query ctx i gc).1)) eqn:Hb.
  - rewrite filter_cons_False.
    2:{ intros Hs. apply (stops_iff ctx i gc se) in Hs. congruence. }
    specialize (IH i). destruct (sweep_range ctx l i) as [i' t]. cbn [snd] in *.
    by rewrite cancels_app, cancels_cleanup_query.
  - apply (stops_iff ctx i gc se) in Hb. rewrite filter_cons_True by done.
    specialize (IH (set_cdCaches (delete gc) i)).
    destruct (sweep_range ctx l (set_cdCaches (delete gc) i)) as [i' t].
    cbn [snd] in *. rewrite cancels_app, cancels_cleanup_query, cancels_app.
    rewrite IH. reflexivity.
Qed.

(** Whatever the answers of the index: the keys whose list came back
    empty are gone, every other key keeps its session, and the contexts
    cancelled are those of the keys that are gone. *)
Lemma cleanup_lookup ctx i gc se :
  cdCaches i !! gc = Some se ->
  cdCaches (sweep ctx i).1 !! gc
  = if decide ((query ctx i gc).1 = []) then None else Some se.
Proof.
  intros Hlk. unfold cleanupReferencedResourceInformers.
  rewrite cleanup_range_lookup, Hlk.
  apply decide_ext. rewrite list_elem_of_fmap. split.
  - intros ([gc' se'] & -> & Hin). apply list_elem_of_filter in Hin as [Hs _]. exact Hs.
  - intros Hs. exists (gc, se). split; [done|].
    apply list_elem_of_filter. split; [exact Hs|]. by apply elem_of_map_to_list.
Qed.

Lemma cleanup_cancel_count ctx i gc se :
  cancelFns_distinct i ->
  cdCaches i !! gc = Some se ->
  cancel_count (cancelFn se) (sweep ctx i).2
  = if decide ((query ctx i gc).1 = []) then 1 else 0.
Proof.
  intros Hdist Hlk. unfold cancel_count, cleanupReferencedResourceInformers.
  rewrite cleanup_range_cancels.
  set (l := filter (stopped ctx i) (map_to_list (cdCaches i))).
  assert (forall e, e ∈ l -> cdCaches i !! e.1 = Some e.2 /\ stopped ctx i e) as Hl.
  { intros [gc' se'] Hin. apply list_elem_of_filter in Hin as [Hs Hin].
    by apply elem_of_map_to_list in Hin. }
  case_decide as Hs.
  - apply filter_eq_NoDup_present.
    + apply NoDup_fmap_2_strong.
      * intros [gc1 s1] [gc2 s2] H1 H2 Heq. simpl in Heq.
        apply Hl in H1 as [H1 _], H2 as [H2 _]. simpl in *.
        assert (gc1 = gc2) as -> by (eapply Hdist; eauto). congruence.
      * apply NoDup_filter, NoDup_map_to_list.
    + apply list_elem_of_fmap. exists (gc, se). split; [done|].
      apply list_elem_of_filter. split; [exact Hs|]. by apply elem_of_map_to_list.
  - apply filter_eq_absent. intros Hin.
    apply list_elem_of_fmap in Hin as ([gc' se'] & Heq & Hin). simpl in Heq.
    apply Hl in Hin as [Hlk' Hs']. simpl in *.
    assert (gc = gc') as <- by (eapply Hdist; eauto). done.
Qed.

(** C5: in a sweep whose queries all succeed, a key whose query returned
    no object is absent from [cdCaches] afterwards and its [cancelFn] was
    called exactly once, and a key whose query returned at least one
    object still has the session it had and its [cancelFn] was not called.
    Sessions own distinct contexts, which is what
    [WatchReferencedResources] establishes. *)
Theorem cleanup_after_successful_queries ctx i :
  cancelFns_distinct i ->
  (forall gc se, cdCaches i !! gc = Some se -> (query ctx i gc).2 = None) ->
  forall gc se,
    cdCaches i !! gc = Some se ->
    ((query ctx i gc).1 = [] ->
       cdCaches (sweep ctx i).1 !! gc = None /\
       cancel_count (cancelFn se) (sweep ctx i).2 = 1) /\
    ((query ctx i gc).1 ≠ [] ->
       cdCaches (sweep ctx i).1 !! gc = Some se /\
       cancel_count (cancelFn se) (sweep ctx i).2 = 0).
Proof.
  intros Hdist _ gc se Hlk.
  rewrite (cleanup_lookup ctx i gc se Hlk), (cleanup_cancel_count ctx i gc se Hdist Hlk).
  split; intros Hitems; by case_decide.
Qed.

(** The sweep on a failed query, in general: a key whose query failed
    and left the list empty loses its session and has it cancelled. *)
Lemma cleanup_deletes_on_failed_query ctx i gc se err :
  cancelFns_distinct i ->
  cdCaches i !! gc = Some se ->
  query ctx i gc = ([], Some err) ->
  cdCaches (sweep ctx i).1 !! gc = None /\
  cancel_count (cancelFn se) (sweep ctx i).2 = 1.
Proof.
  intros Hdist Hlk Hq.
  rewrite (cleanup_lookup ctx i gc se Hlk), (cleanup_cancel_count ctx i gc se Hdist Hlk).
  by rewrite !decide_True by (by rewrite Hq).
Qed.

(** The sweep takes and releases no lock: each of its deletions is made in
    whatever mode the goroutine held the lock when the method was entered. *)
Lemma cleanup_range_lock_mode ctx l i m :
  Forall (fun em => em.2 = m) (lock_at_mutations m (sweep_range ctx l i).2) /\
  mode_after m (sweep_range ctx l i).2 = m.
Proof.
  revert i. induction l as [|[gc se] l IH]; intros i; [by split|].
  cbn [cleanup_range].
  assert (forall r, lock_at_mutations m (cleanup_query objectRefGVKsIndex refKeyGKV ctx gc r) = []
                    /\ mode_after m (cleanup_query objectRefGVKsIndex refKeyGKV ctx gc r) = m)
    as Hq.
  { intros r. unfold cleanup_query. by destruct r.2. }
  destruct (bool_decide _).
  - specialize (IH i). destruct (sweep_range ctx l i) as [i' t]. cbn [snd] in *.
    destruct (Hq (query ctx i gc)) as [Hq1 Hq2], IH as [IH1 IH2].
    by rewrite lock_at_mutations_app, mode_after_app, Hq1, Hq2.
  - specialize (IH (set_cdCaches (delete gc) i)).
    destruct (sweep_range ctx l (set_cdCaches (delete gc) i)) as [i' t]. cbn [snd] in *.
    destruct (Hq (query ctx i gc)) as [Hq1 Hq2], IH as [IH1 IH2].
    rewrite lock_at_mutations_app, mode_after_app, Hq1, Hq2. simpl.
    split; [|done]. by constructor.
Qed.

End CleanupProperties.

(** ** Declaring dependencies *)

Section WatchProperties.

Context {World : Type} `{!ResourceCacheAPI World}.

Implicit Types (s : State World) (cl : option Cluster) (gc : gvkWithConfig).

Ltac unfold_body :=
unfold WatchReferencedResources_body, mbind, M_bind, mret, M_ret, receiver,
  call_cache_New, WithCancel, call_GetInformer, call_AddEventHandler,
  store_cdCache, emit.

(** The five ways through the body. *)

Lemma body_present cl gc s se :
cdCaches (this s) !! gc = Some se ->
WatchReferencedResources_body cl gc s = (cl, s, []).
Proof. intros Hlk. unfold_body. by rewrite Hlk. Qed.

Lemma body_cache_fails cl gc s err w :
cdCaches (this s) !! gc = None ->
cache_New (GetConfig (resolve_cluster cl (this s))) (world s) = (inr err, w) ->
WatchReferencedResources_body cl gc s
= (Some (resolve_cluster cl (this s)),
   {| this := this s; world := w; ctxs := ctxs s |},
   [EvCacheNew (GetConfig (resolve_cluster cl (this s)));
    EvLog Debug "failed creating a cache" (log_kv gc err)]).
Proof. intros Hlk Hnew. unfold_body. by rewrite Hlk, Hnew. Qed.

Lemma body_informer_fails cl gc s ca w1 err w2 :
cdCaches (this s) !! gc = None ->
cache_New (GetConfig (resolve_cluster cl (this s))) (world s) = (inl ca, w1) ->
GetInformer ca (ctxs s) (gvk gc) w1 = (inr err, w2) ->
WatchReferencedResources_body cl gc s
= (Some (resolve_cluster cl (this s)),
   {| this := this s; world := w2; ctxs := S (ctxs s) |},
   [EvCacheNew (GetConfig (resolve_cluster cl (this s)));
    EvWithCancel (ctxs s);
    EvGetInformer ca (ctxs s) (gvk gc);
    EvCancel (ctxs s);
    EvLog Debug "failed getting informer" (log_kv gc err)]).
Proof.
intros Hlk Hnew Hinf. unfold_body. rewrite Hlk, Hnew. simpl. by rewrite Hinf.
Qed.

Lemma body_handler_fails cl gc s ca w1 inf w2 err w3 :
cdCaches (this s) !! gc = None ->
cache_New (GetConfig (resolve_cluster cl (this s))) (world s) = (inl ca, w1) ->
GetInformer ca (ctxs s) (gvk gc) w1 = (inl inf, w2) ->
AddEventHandler inf WatchReferencedResources_handler w2 = (Some err, w3) ->
WatchReferencedResources_body cl gc s
= (Some (resolve_cluster cl (this s)),
   {| this := this s; world := w3; ctxs := S (ctxs s) |},
   [EvCacheNew (GetConfig (resolve_cluster cl (this s)));
    EvWithCancel (ctxs s);
    EvGetInformer ca (ctxs s) (gvk gc);
    EvAddEventHandler inf WatchReferencedResources_handler;
    EvCancel (ctxs s);
    EvLog Debug "failed adding event handler" (log_kv gc err)]).
Proof.
intros Hlk Hnew Hinf Hadd. unfold_body. rewrite Hlk, Hnew. simpl.
rewrite Hinf. simpl. by rewrite Hadd.
Qed.

Lemma body_registers cl gc s ca w1 inf w2 w3 :
cdCaches (this s) !! gc = None ->
cache_New (GetConfig (resolve_cluster cl (this s))) (world s) = (inl ca, w1) ->
GetInformer ca (ctxs s) (gvk gc) w1 = (inl inf, w2) ->
AddEventHandler inf WatchReferencedResources_handler w2 = (None, w3) ->
WatchReferencedResources_body cl gc s
= (Some (resolve_cluster cl (this s)),
   {| this := set_cdCaches (insert gc {| cache := ca; cancelFn := ctxs s |}) (this s);
      world := w3; ctxs := S (ctxs s) |},
   [EvCacheNew (GetConfig (resolve_cluster cl (this s)));
    EvWithCancel (ctxs s);
    EvGetInformer ca (ctxs s) (gvk gc);
    EvAddEventHandler inf WatchReferencedResources_handler;
    EvGo (GoCacheStart ca (ctxs s));
    EvSetCdCache gc;
    EvGo (GoWaitForCacheSync ca (ctxs s))]).
Proof.
intros Hlk Hnew Hinf Hadd. unfold_body. rewrite Hlk, Hnew. simpl.
rewrite Hinf. simpl. by rewrite Hadd.
Qed.

Lemma elem_of_singleton_handler h :
h ∈ [WatchReferencedResources_handler] -> h = WatchReferencedResources_handler.
Proof. intros Hin. by apply list_elem_of_singleton in Hin. Qed.

Ltac no_more_events Hin :=
repeat (apply elem_of_cons in Hin as [Hin|Hin]; [discriminate|]);
by apply elem_of_nil in Hin.

(** A pass that meets a failure. *)
Lemma body_failed cl gc s :
cdCaches (this s) !! gc = None ->
construction_fails cl gc s ->
exists w n t,
  WatchReferencedResources_body cl gc s
  = (Some (resolve_cluster cl (this s)), {| this := this s; world := w; ctxs := n |}, t) /\
  ctxs s <= n /\
  cdCache_sets t = [] /\
  spawned t = [] /\
  (forall m, lock_at_mutations m t = [] /\ mode_after m t = m) /\
  (forall h, h ∈ registered_handlers t -> h = WatchReferencedResources_handler) /\
  (forall c, EvWithCancel c ∈ t -> cancelled_after_creation c t).
Proof.
intros Hlk [(err & w & Hnew)|[(ca & w1 & err & w2 & Hnew & Hinf)
  |(ca & w1 & inf & w2 & err & w3 & Hnew & Hinf & Hadd)]].
- rewrite (body_cache_fails _ _ _ _ _ Hlk Hnew).
  eexists _, _, _. split; [reflexivity|]. repeat split; try done.
  + intros h Hin. by apply elem_of_nil in Hin.
  + intros c Hin. no_more_events Hin.
- rewrite (body_informer_fails _ _ _ _ _ _ _ Hlk Hnew Hinf).
  eexists _, _, _. split; [reflexivity|]. repeat split; try done.
  + lia.
  + intros h Hin. by apply elem_of_nil in Hin.
  + intros c Hin.
    apply elem_of_cons in Hin as [Hin|Hin]; [discriminate|].
    apply elem_of_cons in Hin as [Hin|Hin]; [|no_more_events Hin].
    injection Hin as ->. eexists [_], _. split; [reflexivity|].
    simpl. apply elem_of_cons. by left.
- rewrite (body_handler_fails _ _ _ _ _ _ _ _ _ Hlk Hnew Hinf Hadd).
  eexists _, _, _. split; [reflexivity|]. repeat split; try done.
  + lia.
  + apply elem_of_singleton_handler.
  + intros c Hin.
    apply elem_of_cons in Hin as [Hin|Hin]; [discriminate|].
    apply elem_of_cons in Hin as [Hin|Hin]; [|no_more_events Hin].
    injection Hin as ->. eexists [_], _. split; [reflexivity|].
    simpl. apply elem_of_cons. by left.
Qed.

Lemma body_outcomes cl gc s :
body_outcome cl gc s (WatchReferencedResources_body cl gc s).
Proof.
destruct (cdCaches (this s) !! gc) as [se|] eqn:Hlk.
{ rewrite (body_present _ _ _ _ Hlk). by eapply outcome_present. }
assert (construction_fails cl gc s ->
        body_outcome cl gc s (WatchReferencedResources_body cl gc s)) as Hfailed.
{ intros Hfail.
  destruct (body_failed cl gc s Hlk Hfail) as (w & n & t & -> & ? & ? & ? & ? & ? & ?).
  by apply outcome_failed. }
destruct (cache_New (GetConfig (resolve_cluster cl (this s))) (world s))
  as [[ca|err] w1] eqn:Hnew.
2:{ apply Hfailed. left. eauto. }
destruct (GetInformer ca (ctxs s) (gvk gc) w1) as [[inf|err] w2] eqn:Hinf.
2:{ apply Hfailed. right; left. eauto 10. }
destruct (AddEventHandler inf WatchReferencedResources_handler w2)
  as [[err|] w3] eqn:Hadd.
- apply Hfailed. right; right. eauto 10.
- rewrite (body_registers _ _ _ _ _ _ _ _ Hlk Hnew Hinf Hadd).
  apply outcome_registered; try done.
  apply elem_of_singleton_handler.
Qed.

Lemma range_cons cl gc rest s :
WatchReferencedResources_range cl (gc :: rest) s
= let '(cl', s', t) := WatchReferencedResources_body cl gc s in
  let '(u, s'', t') := WatchReferencedResources_range cl' rest s' in
  (u, s'', t ++ t').
Proof. reflexivity. Qed.

Lemma WatchReferencedResources_unfold cl gcs s :
WatchReferencedResources cl gcs s
= let '(_, s', t) := WatchReferencedResources_range cl gcs s in
  (tt, s', EvRLock :: t ++ [EvRUnlock]).
Proof.
unfold WatchReferencedResources, mbind, M_bind, emit.
by destruct (WatchReferencedResources_range cl gcs s) as [[[] s'] t].
Qed.


Lemma cdCache_sets_app t1 t2 :
cdCache_sets (t1 ++ t2) = cdCache_sets t1 ++ cdCache_sets t2.
Proof. apply omap_app. Qed.


(** A pass never touches [sinks], [objectsCache] or [cluster], never
  removes or replaces a session, and never lets go of a context. *)
Lemma body_frame cl gc s :
let s' := (WatchReferencedResources_body cl gc s).1.2 in
sinks (this s') = sinks (this s) /\
objectsCache (this s') = objectsCache (this s) /\
cluster (this s') = cluster (this s) /\
ctxs s <= ctxs s' /\
forall g se, cdCaches (this s) !! g = Some se -> cdCaches (this s') !! g = Some se.
Proof.
destruct (body_outcomes cl gc s) as [se Hlk|w n t Hlk _ Hn _ _ _ _ _|ca w t Hlk _ _ _];
  simpl; repeat split; try done; try lia.
intros g se Hg. rewrite lookup_insert_ne; [done|]. congruence.
Qed.

Lemma range_frame cl gcs s :
let s' := (WatchReferencedResources_range cl gcs s).1.2 in
sinks (this s') = sinks (this s) /\
objectsCache (this s') = objectsCache (this s) /\
cluster (this s') = cluster (this s) /\
ctxs s <= ctxs s' /\
forall g se, cdCaches (this s) !! g = Some se -> cdCaches (this s') !! g = Some se.
Proof.
revert cl s. induction gcs as [|gc rest IH]; intros cl s.
- simpl. repeat split; done.
- rewrite range_cons. pose proof (body_frame cl gc s) as Hb.
  destruct (WatchReferencedResources_body cl gc s) as [[cl' s1] t1].
  specialize (IH cl' s1).
  destruct (WatchReferencedResources_range cl' rest s1) as [[u s2] t2].
  simpl in *. destruct Hb as (Hs & Ho & Hc & Hn & Hkeep).
  destruct IH as (Hs' & Ho' & Hc' & Hn' & Hkeep').
  repeat split; [congruence | congruence | congruence | lia |].
  intros g se Hg. by apply Hkeep', Hkeep.
Qed.

Lemma body_wf cl gc s :
wf_state s -> wf_state (WatchReferencedResources_body cl gc s).1.2.
Proof.
intros [Hdist Halloc].
destruct (body_outcomes cl gc s) as [se Hlk|w n t Hlk _ Hn _ _ _ _ _|ca w t Hlk _ _ _];
  simpl; [done| |].
- split; [done|]. intros g se Hg. specialize (Halloc g se Hg). simpl in *. lia.
- split.
  + intros g1 g2 s1 s2. simpl. rewrite !lookup_insert_Some.
    intros [[<- <-]|[Hne1 H1]] [[<- <-]|[Hne2 H2]] Heq; simpl in *; try done.
    * specialize (Halloc g2 s2 H2). lia.
    * specialize (Halloc g1 s1 H1). lia.
    * by eapply Hdist.
  + intros g se. simpl. rewrite lookup_insert_Some.
    intros [[<- <-]|[Hne Hg]]; simpl; [lia|].
    specialize (Halloc g se Hg). lia.
Qed.

Lemma range_wf cl gcs s :
wf_state s -> wf_state (WatchReferencedResources_range cl gcs s).1.2.
Proof.
revert cl s. induction gcs as [|gc rest IH]; intros cl s Hwf; [done|].
rewrite range_cons. pose proof (body_wf cl gc s Hwf) as Hb.
destruct (WatchReferencedResources_body cl gc s) as [[cl' s1] t1].
specialize (IH cl' s1 Hb).
by destruct (WatchReferencedResources_range cl' rest s1) as [[u s2] t2].
Qed.

(** Every write of the loop is an insertion into [cdCaches], made in the
  lock mode the loop was entered with; the loop takes and releases no
  lock itself. *)
Lemma range_lock_mode cl gcs s m :
let t := (WatchReferencedResources_range cl gcs s).2 in
lock_at_mutations m t = (fun g => (EvSetCdCache g, m)) <$> cdCache_sets t /\
mode_after m t = m.
Proof.
revert cl s. induction gcs as [|gc rest IH]; intros cl s; [done|].
rewrite range_cons.
destruct (body_outcomes cl gc s)
  as [se Hlk|w n t Hlk _ Hn Hsets _ Hmode _ _|ca w t Hlk Hsets Hmode _].
- specialize (IH cl s).
  by destruct (WatchReferencedResources_range cl rest s) as [[u s2] t2].
- match goal with |- context [WatchReferencedResources_range ?c rest ?s1] =>
    specialize (IH c s1); destruct (WatchReferencedResources_range c rest s1) as [[u s2] t2]
  end.
  simpl in *. destruct (Hmode m) as [Hl Hm], IH as [IH1 IH2].
  by rewrite lock_at_mutations_app, mode_after_app, cdCache_sets_app, Hl, Hm, Hsets, IH1, IH2.
- match goal with |- context [WatchReferencedResources_range ?c rest ?s1] =>
    specialize (IH c s1); destruct (WatchReferencedResources_range c rest s1) as [[u s2] t2]
  end.
  simpl in *. destruct (Hmode m) as [Hl Hm], IH as [IH1 IH2].
  by rewrite lock_at_mutations_app, mode_after_app, cdCache_sets_app, Hl, Hm, Hsets, IH1, IH2.
Qed.

(** A key is written only when it was absent at entry. *)
Lemma range_sets_absent cl gcs s g :
g ∈ cdCache_sets (WatchReferencedResources_range cl gcs s).2 ->
cdCaches (this s) !! g = None.
Proof.
revert cl s. induction gcs as [|gc rest IH]; intros cl s.
- intros Hin. by apply elem_of_nil in Hin.
- rewrite range_cons. pose proof (body_frame cl gc s) as Hb.
  destruct (body_outcomes cl gc s)
    as [se Hlk|w n t Hlk _ Hn Hsets _ _ _ _|ca w t Hlk Hsets _ _].
  + specialize (IH cl s).
    by destruct (WatchReferencedResources_range cl rest s) as [[u s2] t2].
  + match goal with |- context [WatchReferencedResources_range ?c rest ?s1] =>
      specialize (IH c s1); destruct (WatchReferencedResources_range c rest s1) as [[u s2] t2]
    end.
    simpl in *. rewrite cdCache_sets_app, Hsets. exact IH.
  + match goal with |- context [WatchReferencedResources_range ?c rest ?s1] =>
      specialize (IH c s1); destruct (WatchReferencedResources_range c rest s1) as [[u s2] t2]
    end.
    simpl in *. rewrite cdCache_sets_app, Hsets. simpl.
    rewrite elem_of_cons. intros [->|Hin]; [done|].
    specialize (IH Hin). destruct (cdCaches (this s) !! g) as [se|] eqn:Hg; [|done].
    destruct Hb as (_ & _ & _ & _ & Hkeep). specialize (Hkeep g se Hg). congruence.
Qed.


(** Keys that are present are passed over: the loop runs as if they had
  not been declared. *)
Lemma range_skips_present cl gcs s gc se :
cdCaches (this s) !! gc = Some se ->
WatchReferencedResources_range cl gcs s
= WatchReferencedResources_range cl (filter (fun g => g ≠ gc) gcs) s.
Proof.
revert cl s. induction gcs as [|g rest IH]; intros cl s Hlk; [done|].
destruct (decide (g = gc)) as [->|Hne].
- rewrite filter_cons_False by (intros Hn; by apply Hn).
  rewrite range_cons, (body_present _ _ _ _ Hlk), <- (IH cl s Hlk).
  by destruct (WatchReferencedResources_range cl rest s) as [[u s2] t2].
- rewrite filter_cons_True by done. rewrite !range_cons.
  pose proof (body_frame cl g s) as (_ & _ & _ & _ & Hkeep).
  destruct (WatchReferencedResources_body cl g s) as [[cl' s1] t1].
  simpl in Hkeep. by rewrite (IH cl' s1 (Hkeep _ _ Hlk)).
Qed.

End WatchProperties.

Section WatchClaims.

Context {World : Type} `{!ResourceCacheAPI World}.

Implicit Types (s : State World) (cl : option Cluster) (gc : gvkWithConfig).

(** C6: when the pass for a new key meets a failure in [cache.New],
  [GetInformer] or [AddEventHandler], the receiver is left as it was, so
  the key is not in [cdCaches]; nothing was written to [cdCaches] and no
  goroutine was started; every context the pass created it also
  cancelled, after creating it; and the loop goes on with the remaining
  keys from the state the pass left.  The call has no error result. *)
Theorem WatchReferencedResources_failure_is_contained cl gc rest s :
cdCaches (this s) !! gc = None ->
construction_fails cl gc s ->
exists cl' s' t,
  WatchReferencedResources_body cl gc s = (cl', s', t) /\
  this s' = this s /\
  cdCaches (this s') !! gc = None /\
  cdCache_sets t = [] /\
  spawned t = [] /\
  (forall c, EvWithCancel c ∈ t -> cancelled_after_creation c t) /\
  WatchReferencedResources_range cl (gc :: rest) s
  = (let '(u, s'', t') := WatchReferencedResources_range cl' rest s' in
     (u, s'', t ++ t')).
Proof.
intros Hlk Hfail. rewrite range_cons.
destruct (body_failed cl gc s Hlk Hfail)
  as (w & n & t & -> & Hn & Hsets & Hgo & _ & _ & Hcancel).
eexists _, _, _. repeat split; done.
Qed.

End WatchClaims.

Section SequenceProperties.

Variable objectRefGVKsIndex : string.
Variable refKeyGKV : string -> string -> string -> string -> string.
Context {World : Type} `{!ResourceCacheAPI World}.

Implicit Types (s : State World) (o : Op) (os : list Op).

Local Abbreviation step := (run_op objectRefGVKsIndex refKeyGKV).
Local Abbreviation steps := (run_ops objectRefGVKsIndex refKeyGKV).


Lemma step_watch_skips_present cl gcs s gc se :
cdCaches (this s) !! gc = Some se ->
step (OpWatch cl gcs) s = step (without gc (OpWatch cl gcs)) s.
Proof.
intros Hlk. simpl. rewrite !WatchReferencedResources_unfold.
by rewrite (range_skips_present cl gcs s gc se Hlk).
Qed.

Lemma step_keeps_session o s gc se :
is_cleanup o = false ->
cdCaches (this s) !! gc = Some se ->
step o s = step (without gc o) s /\
cdCaches (this (step o s).1) !! gc = Some se /\
gc ∉ cdCache_sets (step o s).2.
Proof.
intros Hno Hlk. destruct o as [ctx h q ps id|id|cl gcs|ctx]; try done.
- repeat split; try done. simpl. apply not_elem_of_nil.
- repeat split; try done. simpl. apply not_elem_of_nil.
- split; [by eapply step_watch_skips_present|].
  simpl. rewrite WatchReferencedResources_unfold.
  pose proof (range_frame cl gcs s) as (_ & _ & _ & _ & Hkeep).
  pose proof (range_sets_absent cl gcs s gc) as Habs.
  destruct (WatchReferencedResources_range cl gcs s) as [[u s'] t]. simpl in *.
  split; [by apply Hkeep|].
  change (EvRLock :: t ++ [EvRUnlock]) with ([EvRLock] ++ t ++ [EvRUnlock]).
  rewrite !cdCache_sets_app. simpl. rewrite app_nil_r.
  intros Hin. specialize (Habs Hin). congruence.
Qed.

(** C4: in every sequence of calls that contains no sweep, a key that has
  a session is passed over by every [WatchReferencedResources] call: the
  sequence runs exactly (same final state, same effects) as the sequence
  in which the key is struck from every call's arguments; the key keeps
  the session it had; and [cdCaches] is never written for it, so no
  second session is created. *)
Theorem WatchReferencedResources_skips_present_keys os s gc se :
Forall (fun o => is_cleanup o = false) os ->
cdCaches (this s) !! gc = Some se ->
steps os s = steps (without gc <$> os) s /\
cdCaches (this (steps os s).1) !! gc = Some se /\
gc ∉ cdCache_sets (steps os s).2.
Proof.
intros Hno. revert s. induction Hno as [|o os Ho _ IH]; intros s Hlk.
- repeat split; try done. simpl. apply not_elem_of_nil.
- destruct (step_keeps_session o s gc se Ho Hlk) as (Heq & Hkeep & Hsets).
  rewrite fmap_cons. simpl. rewrite <- Heq.
  destruct (step o s) as [s1 t1]. simpl in *.
  destruct (IH s1 Hkeep) as (IHeq & IHkeep & IHsets). rewrite <- IHeq.
  destruct (steps os s1) as [s2 t2]. simpl in *.
  repeat split; try done.
  rewrite cdCache_sets_app, elem_of_app. tauto.
Qed.

Lemma step_keeps_sink_absent o s id :
starts id o = false ->
sinks (this s) !! id = None ->
sinks (this (step o s).1) !! id = None.
Proof.
intros Hno Hnone. destruct o as [ctx h q ps id'|id'|cl gcs|ctx]; simpl.
- simpl in Hno. apply bool_decide_eq_false in Hno.
  by rewrite lookup_insert_ne.
- destruct (decide (id' = id)) as [->|Hne].
  + apply lookup_delete_eq.
  + by rewrite lookup_delete_ne.
- rewrite WatchReferencedResources_unfold.
  pose proof (range_frame cl gcs s) as (Hs & _).
  destruct (WatchReferencedResources_range cl gcs s) as [[u s'] t]. simpl in *.
  by rewrite Hs.
- unfold cleanupReferencedResourceInformers.
  pose proof (cleanup_range_frame objectRefGVKsIndex refKeyGKV ctx
                (map_to_list (cdCaches (this s))) (this s)) as (_ & Hs & _).
  destruct (cleanup_range _ _ _ _ _) as [i' t]. simpl in *. by rewrite Hs.
Qed.

(** Once a subscriber's entry is removed, no notification calls it, however
  many calls follow, as long as none of them is a [Start] that draws the
  same identity again. *)
Lemma removed_sink_is_never_called os s id oldObj newObj :
Forall (fun o => starts id o = false) os ->
sink_calls id (WatchReferencedResources_UpdateFunc oldObj newObj
                 (this (steps os (with_this s (Start_ctxDone id (this s)).1)).1)) = [].
Proof.
intros Hno. apply UpdateFunc_absent_never_called.
assert (sinks (this (with_this s (Start_ctxDone id (this s)).1)) !! id = None) as Hnone.
{ simpl. apply lookup_delete_eq. }
revert Hnone. generalize (with_this s (Start_ctxDone id (this s)).1). clear s.
induction Hno as [|o os Ho _ IH]; intros s Hnone; [done|].
simpl. pose proof (step_keeps_sink_absent o s id Ho Hnone) as Hstep.
destruct (step o s) as [s1 t1]. specialize (IH s1 Hstep).
by destruct (steps os s1) as [s2 t2].
Qed.

(** Sessions own distinct contexts in every state the calls can reach. *)
Lemma step_wf o s : wf_state s -> wf_state (step o s).1.
Proof.
intros Hwf. destruct o as [ctx h q ps id|id|cl gcs|ctx]; simpl; try done.
- rewrite WatchReferencedResources_unfold.
  pose proof (range_wf cl gcs s Hwf) as Hr.
  by destruct (WatchReferencedResources_range cl gcs s) as [[u s'] t].
- destruct Hwf as [Hdist Halloc].
  assert (forall g se,
            cdCaches (cleanupReferencedResourceInformers objectRefGVKsIndex
                        refKeyGKV ctx (this s)).1 !! g = Some se ->
            cdCaches (this s) !! g = Some se) as Hsub.
  { intros g se. unfold cleanupReferencedResourceInformers.
    rewrite cleanup_range_lookup. by case_decide. }
  destruct (cleanupReferencedResourceInformers _ _ _ _) as [i' t]. simpl in *.
  split.
  + intros g1 g2 s1 s2 H1 H2. apply Hsub in H1, H2. by eapply Hdist.
  + intros g se Hg. apply Hsub in Hg. by apply (Halloc g se).
Qed.

Lemma steps_wf os s : wf_state s -> wf_state (steps os s).1.
Proof.
revert s. induction os as [|o os IH]; intros s Hwf; [done|].
simpl. pose proof (step_wf o s Hwf) as Hstep.
destruct (step o s) as [s1 t1]. specialize (IH s1 Hstep).
by destruct (steps os s1) as [s2 t2].
Qed.

(** Every write that [WatchReferencedResources] makes to [cdCaches] is made
  while the goroutine holds [i.lock] in read mode. *)
Lemma WatchReferencedResources_lock_mode cl gcs s :
lock_at_mutations Unlocked (WatchReferencedResources cl gcs s).2
= (fun g => (EvSetCdCache g, ReadLocked))
    <$> cdCache_sets (WatchReferencedResources cl gcs s).2.
Proof.
rewrite WatchReferencedResources_unfold.
pose proof (range_lock_mode cl gcs s ReadLocked) as [Hl Hm].
destruct (WatchReferencedResources_range cl gcs s) as [[u s'] t]. simpl in *.
rewrite lock_at_mutations_app, cdCache_sets_app, Hl, Hm. simpl.
by rewrite !app_nil_r.
Qed.

End SequenceProperties.

Lemma initial_state_wf idx w : wf_state (initial_state idx w).
Proof.
  split.
  - intros g1 g2 s1 s2 H1. cbn in H1. by rewrite lookup_empty in H1.
  - intros g se Hg. cbn in Hg. by rewrite lookup_empty in Hg.
Qed.

(** [Start] and its goroutine write to [sinks] holding the lock in write
    mode. *)
Lemma Start_holds_write_lock ctx h q ps id i :
  lock_at_mutations Unlocked (Start ctx h q ps id i).2 = [(EvSetSink id, WriteLocked)] /\
  lock_at_mutations Unlocked (Start_ctxDone id i).2 = [(EvDeleteSink id, WriteLocked)].
Proof. done. Qed.

(** * Worked examples *)

Example declare_A_B_sessions idx :
  cdCaches (this (declare_A_B idx)) !! gcA = Some session_A /\
  cdCaches (this (declare_A_B idx)) !! gcB = Some session_B.
Proof. split; reflexivity. Qed.

Lemma declare_A_B_wf idx : wf_state (declare_A_B idx).
Proof.
  unfold declare_A_B. rewrite WatchReferencedResources_unfold.
  pose proof (range_wf None [gcA; gcB] (initial_state idx all_succeed)
                (initial_state_wf idx all_succeed)) as Hwf.
  by destruct (WatchReferencedResources_range _ _ _) as [[u s] t].
Qed.

(** C1 on the code: [gcA] has a session and the index cannot be reached.
    The sweep logs the error and goes on to line 196 with the empty list:
    it cancels the session's context and deletes the key. *)
Theorem cleanup_deletes_when_query_fails :
  let i := this (declare_A_B unreachable_index) in
  let r := cleanupReferencedResourceInformers "objectRefGVKs" sample_refKeyGKV 7 i in
  cdCaches i !! gcA = Some session_A /\
  list_referencing "objectRefGVKs" sample_refKeyGKV 7 i gcA = ([], Some "index unavailable") /\
  cdCaches r.1 !! gcA = None /\
  cancel_count (cancelFn session_A) r.2 = 1 /\
  EvDeleteCdCache gcA ∈ r.2.
Proof.
  cbv zeta. split; [reflexivity|]. split; [reflexivity|].
  destruct (cleanup_deletes_on_failed_query "objectRefGVKs" sample_refKeyGKV 7
              (this (declare_A_B unreachable_index)) gcA session_A "index unavailable")
    as [Hgone Hcancel].
  - apply declare_A_B_wf.
  - reflexivity.
  - reflexivity.
  - split; [exact Hgone|]. split; [exact Hcancel|].
    vm_compute. repeat (first [left | right]).
Qed.

(** C2 on the code: declaring a new key against a world where every call
    succeeds writes [cdCaches] while the lock is held in read mode, and a
    sweep that stops both sessions deletes from [cdCaches] without the
    method having taken the lock at all. *)
Theorem WatchReferencedResources_writes_under_read_lock :
  let t := (WatchReferencedResources None [gcA]
              (initial_state no_referencers [Ok 10; Ok 11; Ok 12])).2 in
  let t' := (cleanupReferencedResourceInformers "objectRefGVKs" sample_refKeyGKV 7
               (this (declare_A_B no_referencers))).2 in
  lock_at_mutations Unlocked t = [(EvSetCdCache gcA, ReadLocked)] /\
  mutations_hold_write_lock t = false /\
  (lock_at_mutations Unlocked t').*2 = [Unlocked; Unlocked] /\
  mutations_hold_write_lock t' = false.
Proof. cbv zeta. repeat split; vm_compute; reflexivity. Qed.

Lemma Start_sink_predicate_chain_witness :
  exists f,
    sinks (Start 1 "h1" "q1" [always true; always false; always true] "s1"
             (empty_informers no_referencers)).1.2 !! "s1" = Some f /\
    f ev_v1_v2 = [EvPredicateUpdate (always true) ev_v1_v2;
                  EvPredicateUpdate (always false) ev_v1_v2] /\
    handler_calls (f ev_v1_v2) = [].
Proof.
  destruct (Start_sink_predicate_chain 1 "h1" "q1"
              [always true; always false; always true] "s1"
              (empty_informers no_referencers)) as (f & Hf & Hchain).
  exists f. split; [exact Hf|].
  destruct (Hchain ev_v1_v2) as (_ & Hreject & Hcalls).
  split; [|exact Hcalls].
  apply (Hreject [always true] (always false) [always true]).
  - reflexivity.
  - repeat constructor.
  - reflexivity.
Defined.

Lemma UpdateFunc_fans_out_once_witness :
  WatchReferencedResources_UpdateFunc obj_v1 obj_v1 two_subscribers = [] /\
  sink_calls "s1" (WatchReferencedResources_UpdateFunc obj_v1 obj_v2 two_subscribers)
  = [(ev_v1_v2, [EvPredicateUpdate (always true) ev_v1_v2;
                 EvHandlerUpdate "h1" 1 ev_v1_v2 "q1"])] /\
  sink_calls "s2" (WatchReferencedResources_UpdateFunc obj_v1 obj_v2 two_subscribers)
  = [(ev_v1_v2, [EvPredicateUpdate (always false) ev_v1_v2])].
Proof.
  split; [|split].
  - apply (UpdateFunc_fans_out_once obj_v1 obj_v1 two_subscribers). reflexivity.
  - apply (proj2 (UpdateFunc_fans_out_once obj_v1 obj_v2 two_subscribers)).
    intros H; discriminate H.
  - apply (proj2 (UpdateFunc_fans_out_once obj_v1 obj_v2 two_subscribers)).
    intros H; discriminate H.
Defined.

Lemma Start_ctxDone_removes_only_its_sink_witness :
  sinks (Start_ctxDone "s1" two_subscribers).1 !! "s1" = None /\
  sinks (Start_ctxDone "s1" two_subscribers).1 !! "s2" = sinks two_subscribers !! "s2".
Proof.
  destruct (Start_ctxDone_removes_only_its_sink "s1" two_subscribers)
    as (Hgone & Hothers & _).
  split; [exact Hgone|]. apply Hothers. intros H; discriminate H.
Defined.

Lemma cleanup_after_successful_queries_witness :
  let i := this (declare_A_B sample_index) in
  let r := cleanupReferencedResourceInformers "objectRefGVKs" sample_refKeyGKV 7 i in
  (cdCaches r.1 !! gcB = None /\ cancel_count (cancelFn session_B) r.2 = 1) /\
  (cdCaches r.1 !! gcA = Some session_A /\ cancel_count (cancelFn session_A) r.2 = 0).
Proof.
  cbv zeta.
  assert (forall gc se,
            cdCaches (this (declare_A_B sample_index)) !! gc = Some se ->
            (list_referencing "objectRefGVKs" sample_refKeyGKV 7
               (this (declare_A_B sample_index)) gc).2 = None) as Hok.
  { intros gc se _. unfold list_referencing.
    change (objectsCache (this (declare_A_B sample_index))) with sample_index.
    unfold sample_index. by case_match. }
  split.
  - apply (cleanup_after_successful_queries "objectRefGVKs" sample_refKeyGKV 7
             (this (declare_A_B sample_index))
             (proj1 (declare_A_B_wf sample_index)) Hok gcB session_B).
    + reflexivity.
    + reflexivity.
  - apply (cleanup_after_successful_queries "objectRefGVKs" sample_refKeyGKV 7
             (this (declare_A_B sample_index))
             (proj1 (declare_A_B_wf sample_index)) Hok gcA session_A).
    + reflexivity.
    + intros H; discriminate H.
Defined.

Lemma WatchReferencedResources_failure_is_contained_witness :
  exists cl' s' t,
    WatchReferencedResources_body None gcA (initial_state no_referencers informer_fails_once)
    = (cl', s', t) /\
    cdCaches (this s') !! gcA = None /\
    cancels t = [0] /\
    cdCaches (this (WatchReferencedResources_range None [gcA; gcB]
                      (initial_state no_referencers informer_fails_once)).1.2) !! gcB
    = Some {| cache := 20; cancelFn := 1 |}.
Proof.
  destruct (WatchReferencedResources_failure_is_contained None gcA [gcB]
              (initial_state no_referencers informer_fails_once))
    as (cl' & s' & t & Hbody & Hthis & Hgc & Hsets & Hgo & Hcancel & Hrange).
  - reflexivity.
  - right; left. exists 10, [Fail "no informer"; Ok 20; Ok 21; Ok 22],
      "no informer", [Ok 20; Ok 21; Ok 22]. split; reflexivity.
  - exists cl', s', t. split; [exact Hbody|]. split; [exact Hgc|].
    injection Hbody as <- <- <-. split; reflexivity.
Defined.

Lemma WatchReferencedResources_skips_present_keys_witness :
  let os := [OpWatch None [gcA; gcB]; OpStart 1 "h1" "q1" [] "s1";
             OpWatch (Some controlPlane) [gcB; gcA; gcA]] in
  let r := run_ops "objectRefGVKs" sample_refKeyGKV os (declare_A_B no_referencers) in
  cdCaches (this r.1) !! gcA = Some session_A /\ gcA ∉ cdCache_sets r.2.
Proof.
  cbv zeta.
  destruct (WatchReferencedResources_skips_present_keys "objectRefGVKs" sample_refKeyGKV
              [OpWatch None [gcA; gcB]; OpStart 1 "h1" "q1" [] "s1";
               OpWatch (Some controlPlane) [gcB; gcA; gcA]]
              (declare_A_B no_referencers) gcA session_A)
    as (_ & Hkeep & Hsets).
  - repeat constructor.
  - reflexivity.
  - split; [exact Hkeep | exact Hsets].
Defined.


(** * Further properties *)

(** ** Splitting strings *)

Lemma string_app_nil (b : string) : "" +:+ b = b.
Proof. reflexivity. Qed.

Lemma string_app_cons (x : Ascii.ascii) (a b : string) :
  String x a +:+ b = String x (a +:+ b).
Proof. reflexivity. Qed.

Lemma string_app_nil_r (a : string) : a +:+ "" = a.
Proof.
  induction a as [|x a IH]; [done|]. by rewrite string_app_cons, IH.
Qed.

Lemma string_app_assoc (a b c : string) : (a +:+ b) +:+ c = a +:+ (b +:+ c).
Proof.
  induction a as [|x a IH]; [done|]. by rewrite !string_app_cons, IH.
Qed.

Lemma string_length_app (a b : string) :
  String.length (a +:+ b) = String.length a + String.length b.
Proof.
  induction a as [|x a IH]; [done|]. rewrite string_app_cons. simpl. by rewrite IH.
Qed.

Lemma slice_from_app (a b : string) : slice_from (String.length a) (a +:+ b) = b.
Proof.
  induction a as [|x a IH]; [by destruct b|]. by rewrite string_app_cons.
Qed.

Lemma slice_to_app (a b : string) : slice_to (String.length a) (a +:+ b) = a.
Proof.
  induction a as [|x a IH]; [by destruct b|].
  rewrite string_app_cons. simpl. by rewrite IH.
Qed.

Lemma slice_to_from (n : nat) (s : string) : slice_to n s +:+ slice_from n s = s.
Proof.
  revert s. induction n as [|n IH]; intros [|c s]; simpl; try done.
  by rewrite string_app_cons, IH.
Qed.

Lemma slice_from_add (n k : nat) (s : string) :
  slice_from (n + k) s = slice_from k (slice_from n s).
Proof.
  revert s. induction n as [|n IH]; intros [|c s]; simpl; try done;
    by destruct k.
Qed.

Lemma prefix_app (p s : string) :
  String.prefix p s = true -> s = p +:+ slice_from (String.length p) s.
Proof.
  revert s. induction p as [|x p IH]; intros [|c s]; simpl; try done.
  destruct (Ascii.ascii_dec x c) as [->|]; [|done].
  intros Hp. by rewrite string_app_cons, <- (IH s Hp).
Qed.

Lemma prefix_of_app (p r : string) : String.prefix p (p +:+ r) = true.
Proof.
  induction p as [|x p IH]; [by destruct r|].
  rewrite string_app_cons. simpl. by destruct (Ascii.ascii_dec x x).
Qed.

(** Where [Index] finds [sep], the string is the part before, [sep], and
    the part after. *)
Lemma Index_Some_split s sep m :
  Index s sep = Some m ->
  m + String.length sep <= String.length s /\
  s = slice_to m s +:+ sep +:+ slice_from (m + String.length sep) s.
Proof.
  revert m. induction s as [|c s IH]; intros m.
  - destruct sep; simpl; [|done]. by intros [= <-].
  - cbn [Index]. destruct (String.prefix sep (String c s)) eqn:Hp.
    + intros [= <-]. pose proof (prefix_app _ _ Hp) as Hs.
      split; [|exact Hs].
      apply (f_equal String.length) in Hs. rewrite string_length_app in Hs. lia.
    + destruct (Index s sep) as [m'|] eqn:Hi; [|done]. simpl.
      intros [= <-]. destruct (IH m' eq_refl) as [Hlen Hs]. simpl.
      split; [lia|]. by rewrite string_app_cons, <- Hs.
Qed.

Lemma genSplit_loop_nonempty fuel s sep : genSplit_loop fuel s sep ≠ [].
Proof. destruct fuel; simpl; [done|]. by destruct (Index s sep). Qed.

Lemma genSplit_loop_join fuel s sep :
  String.concat sep (genSplit_loop fuel s sep) = s.
Proof.
  revert s. induction fuel as [|fuel IH]; intros s; simpl; [done|].
  destruct (Index s sep) as [m|] eqn:Hi; [|done].
  pose proof (IH (slice_from (m + String.length sep) s)) as Hrest.
  pose proof (genSplit_loop_nonempty fuel (slice_from (m + String.length sep) s) sep) as Hne.
  destruct (Index_Some_split s sep m Hi) as [_ Hs].
  simpl. destruct (genSplit_loop fuel _ sep) as [|p ps]; [done|].
  rewrite Hrest. by rewrite <- Hs.
Qed.

Lemma genSplit_loop_length fuel s sep :
  1 <= length (genSplit_loop fuel s sep) <= S fuel.
Proof.
  revert s. induction fuel as [|fuel IH]; intros s; simpl; [lia|].
  destruct (Index s sep) as [m|]; simpl; [|lia].
  specialize (IH (slice_from (m + String.length sep) s)). lia.
Qed.

(** X1: for a separator that is not empty and a count of at least one,
    [SplitN] returns between one and [n] pieces, and the pieces joined by
    the separator are the string it was given: nothing is lost and nothing
    is added, also when the separator occurs more often than the count
    allows cuts. *)
Theorem SplitN_join s sep n :
  sep ≠ "" ->
  1 <= n ->
  1 <= length (SplitN s sep n) <= n /\
  String.concat sep (SplitN s sep n) = s.
Proof.
  intros _ Hn. destruct n as [|n]; [lia|]. unfold SplitN. split.
  - pose proof (genSplit_loop_length
                  (Nat.min (S n) (String.length s + 1) - 1) s sep). lia.
  - apply genSplit_loop_join.
Qed.

Lemma SplitN_join_witness :
  SplitN "a/b/c" "/" 2 = ["a"; "b/c"] /\
  String.concat "/" (SplitN "a/b/c" "/" 2) = "a/b/c".
Proof.
  split; [reflexivity|].
  apply (SplitN_join "a/b/c" "/" 2); [intros H; discriminate H | lia].
Defined.

(** ** parseAPIVersion *)

Lemma prefix_slice_to p n s :
  String.prefix p (slice_to n s) = true -> String.prefix p s = true.
Proof.
  revert n s. induction p as [|x p IH]; intros n s; [by destruct s|].
  destruct n as [|n], s as [|c s]; simpl; try done.
  destruct (Ascii.ascii_dec x c); [|done]. apply IH.
Qed.

(** [Index] finds the first occurrence: the part before it holds none. *)
Lemma Index_first s sep m :
  sep ≠ "" -> Index s sep = Some m -> Index (slice_to m s) sep = None.
Proof.
  intros Hsep. revert m. induction s as [|c s IH]; intros m.
  - destruct sep; [done|]. by destruct m.
  - cbn [Index]. destruct (String.prefix sep (String c s)) eqn:Hp.
    + intros [= <-]. by destruct sep.
    + destruct (Index s sep) as [m'|] eqn:Hi; [|done]. simpl.
      intros [= <-]. cbn [slice_to Index].
      destruct (String.prefix sep (String c (slice_to m' s))) eqn:Hp'.
      * apply (prefix_slice_to sep (S m') (String c s)) in Hp'. congruence.
      * by rewrite (IH m' eq_refl).
Qed.

Lemma prefix_char x c r :
  String.prefix (String x "") (String c r) = bool_decide (x = c).
Proof.
  simpl. destruct (Ascii.ascii_dec x c) as [->|Hne].
  - rewrite bool_decide_eq_true_2 by done. by destruct r.
  - by rewrite bool_decide_eq_false_2.
Qed.

Lemma Index_char_app x g r :
  Index g (String x "") = None ->
  Index (g +:+ String x "" +:+ r) (String x "") = Some (String.length g).
Proof.
  change (String x "" +:+ r) with (String x r).
  induction g as [|c g IH].
  - intros _. rewrite string_app_nil. cbn [Index]. rewrite prefix_char.
    by rewrite bool_decide_eq_true_2.
  - rewrite string_app_cons. cbn [Index]. rewrite !prefix_char.
    destruct (bool_decide (x = c)); [done|].
    destruct (Index g (String x "")) eqn:Hg; [done|].
    intros _. by rewrite IH.
Qed.

(** X2: an API version written as group, a slash, and a version, where the
    group holds no slash, parses back into that group and that version;
    the version may hold further slashes and the group may be empty. *)
Theorem parseAPIVersion_of_group_version g ver :
  Index g "/" = None ->
  parseAPIVersion (g +:+ "/" +:+ ver) = (g, ver).
Proof.
  intros Hg. pose proof (Index_char_app _ g ver Hg) as Hi.
  assert (String.length (g +:+ "/" +:+ ver) = String.length g + S (String.length ver))
    as Hlen by (by rewrite string_length_app).
  unfold parseAPIVersion, SplitN. rewrite Hlen.
  replace (Nat.min 2 (String.length g + S (String.length ver) + 1) - 1) with 1 by lia.
  cbn [genSplit_loop]. rewrite Hi.
  rewrite slice_to_app, slice_from_add, slice_from_app. reflexivity.
Qed.

Lemma parseAPIVersion_of_group_version_witness :
  parseAPIVersion "apps/v1" = ("apps", "v1").
Proof.
  apply (parseAPIVersion_of_group_version "apps" "v1"). reflexivity.
Defined.

(** X3: whatever the string, [parseAPIVersion] cuts it at its first slash
    and nowhere else.  Without a slash the group is empty and the version
    is the whole string (so the empty string gives two empty strings); with
    one, the string is the group, a slash, and the version; in both cases
    the group holds no slash.  The [default] branch is never taken. *)
Theorem parseAPIVersion_cuts_at_first_slash v :
  Index (parseAPIVersion v).1 "/" = None /\
  match Index v "/" with
  | None => parseAPIVersion v = ("", v)
  | Some _ => v = (parseAPIVersion v).1 +:+ "/" +:+ (parseAPIVersion v).2
  end.
Proof.
  unfold parseAPIVersion, SplitN.
  destruct (Index v "/") as [m|] eqn:Hi.
  - destruct (Index_Some_split v "/" m Hi) as [Hlen Hv]. simpl in Hlen.
    replace (Nat.min 2 (String.length v + 1) - 1) with 1 by lia.
    cbn [genSplit_loop]. rewrite Hi. cbn [fst snd]. split; [|exact Hv].
    by apply Index_first.
  - assert (genSplit_loop (Nat.min 2 (String.length v + 1) - 1) v "/" = [v]) as ->.
    { destruct (Nat.min 2 (String.length v + 1) - 1); simpl; [done|]. by rewrite Hi. }
    done.
Qed.

(** ** The string form of a key *)

Lemma string_app_inv_tail (a b r : string) : a +:+ r = b +:+ r -> a = b.
Proof.
  intros Heq.
  assert (String.length a = String.length b) as Hlen.
  { apply (f_equal String.length) in Heq. rewrite !string_length_app in Heq. lia. }
  revert b Heq Hlen. induction a as [|x a IH]; intros [|y b] Heq Hlen; try done.
  rewrite !string_app_cons in Heq. injection Heq as -> Heq.
  f_equal. apply IH; [done|]. simpl in Hlen. lia.
Qed.

(** X4: two keys for the same group, version and kind have the same string
    form only when they name the same configuration: the diagnostic string
    tells the clusters of one kind apart. *)
Theorem gvkWithConfig_String_tells_configs_apart k1 k2 :
  gvk k1 = gvk k2 ->
  gvkWithConfig_String k1 = gvkWithConfig_String k2 ->
  k1 = k2.
Proof.
  destruct k1 as [c1 g1], k2 as [c2 g2]. simpl. intros <-.
  unfold gvkWithConfig_String. simpl. intros Heq.
  apply string_app_inv_tail in Heq. by subst.
Qed.

Lemma gvkWithConfig_String_tells_configs_apart_witness :
  gcA = {| config := "default"; gvk := gvk gcA |}.
Proof.
  apply (gvkWithConfig_String_tells_configs_apart gcA
           {| config := "default"; gvk := gvk gcA |}); reflexivity.
Defined.

(** ** Subscribing *)

(** X5: a subscription leaves nothing behind.  When the identity drawn by
    [Start] was not in use, [Start] followed by the goroutine that runs
    when the context is done puts the receiver back exactly as it was. *)
Theorem Start_then_ctxDone_restores ctx h q ps id i :
  sinks i !! id = None ->
  (Start_ctxDone id (Start ctx h q ps id i).1.2).1 = i.
Proof.
  intros Hfresh. destruct i as [cl cd oc sk]. simpl in *.
  unfold set_sinks. simpl. f_equal. by apply delete_insert_id.
Qed.

Lemma Start_then_ctxDone_restores_witness :
  (Start_ctxDone "s3" (Start 3 "h3" "q3" [always true] "s3" two_subscribers).1.2).1
  = two_subscribers.
Proof.
  apply (Start_then_ctxDone_restores 3 "h3" "q3" [always true] "s3" two_subscribers).
  reflexivity.
Defined.

(** X6: from [Start] to the handler.  After [Start] has stored a
    subscriber under [id], a notification whose objects differ in resource
    version calls that subscriber once with the pair, and the call reaches
    [h.Update(ctx, ev, q)] exactly when every predicate of [ps] accepts the
    event; every other subscriber is called as it would have been without
    the new one. *)
Theorem Start_then_notification ctx h q ps id i oldObj newObj :
  GetResourceVersion oldObj ≠ GetResourceVersion newObj ->
  let i' := (Start ctx h q ps id i).1.2 in
  let ev := {| ObjectOld := oldObj; ObjectNew := newObj |} in
  (exists eff,
     sink_calls id (WatchReferencedResources_UpdateFunc oldObj newObj i') = [(ev, eff)] /\
     handler_calls eff
     = if forallb (fun p => Update p ev) ps then [(h, ctx, ev, q)] else []) /\
  (forall id', id' ≠ id ->
     sink_calls id' (WatchReferencedResources_UpdateFunc oldObj newObj i')
     = sink_calls id' (WatchReferencedResources_UpdateFunc oldObj newObj i)).
Proof.
  intros Hrv i' ev. split.
  - exists (Start_sink ctx h q ps ev). split; [|apply Start_sink_handler_calls].
    rewrite (UpdateFunc_sink_calls _ _ _ _ Hrv). subst i'. simpl.
    by rewrite lookup_insert_eq.
  - intros id' Hne. rewrite !(UpdateFunc_sink_calls _ _ _ _ Hrv). subst i'. simpl.
    by rewrite lookup_insert_ne.
Qed.

Lemma Start_then_notification_witness :
  (exists eff,
     sink_calls "s3" (WatchReferencedResources_UpdateFunc obj_v1 obj_v2
                        (Start 3 "h3" "q3" [always true; always true] "s3"
                           two_subscribers).1.2) = [(ev_v1_v2, eff)] /\
     handler_calls eff = [("h3", 3, ev_v1_v2, "q3")]) /\
  sink_calls "s1" (WatchReferencedResources_UpdateFunc obj_v1 obj_v2
                     (Start 3 "h3" "q3" [always true; always true] "s3"
                        two_subscribers).1.2)
  = sink_calls "s1" (WatchReferencedResources_UpdateFunc obj_v1 obj_v2 two_subscribers).
Proof.
  destruct (Start_then_notification 3 "h3" "q3" [always true; always true] "s3"
              two_subscribers obj_v1 obj_v2) as [Hnew Hothers].
  - intros H; discriminate H.
  - split; [exact Hnew|]. apply Hothers. intros H; discriminate H.
Defined.

(** ** Declaring dependencies, continued *)

Lemma lock_ops_app t1 t2 : lock_ops (t1 ++ t2) = lock_ops t1 ++ lock_ops t2.
Proof. apply omap_app. Qed.

Lemma lock_run_app st t1 t2 :
  lock_run st (t1 ++ t2)
  = match lock_run st t1 with Some st' => lock_run st' t2 | None => None end.
Proof.
  revert st. induction t1 as [|e t1 IH]; intros st; [done|].
  simpl. destruct (lock_step st e) as [st'|]; [apply IH|done].
Qed.

(** A log without lock operations leaves what is held as it is. *)
Lemma lock_run_no_ops st t : lock_ops t = [] -> lock_run st t = Some st.
Proof.
  induction t as [|e t IH]; [done|].
  destruct e; simpl; try done; exact IH.
Qed.

Section WatchFurther.

Context {World : Type} `{!ResourceCacheAPI World}.

Implicit Types (s : State World) (cl : option Cluster) (gc : gvkWithConfig).

(** Case analysis on the way a pass takes, with the pass rewritten to its
    result. *)
Ltac body_paths cl gc s :=
  let Hlk := fresh "Hlk" in
  let Hnew := fresh "Hnew" in
  let Hinf := fresh "Hinf" in
  let Hadd := fresh "Hadd" in
  destruct (cdCaches (this s) !! gc) as [se|] eqn:Hlk;
  [ rewrite (body_present cl gc s se Hlk)
  | destruct (cache_New (GetConfig (resolve_cluster cl (this s))) (world s))
      as [[ca|err] w1] eqn:Hnew;
    [ destruct (GetInformer ca (ctxs s) (gvk gc) w1) as [[inf|err] w2] eqn:Hinf;
      [ destruct (AddEventHandler inf WatchReferencedResources_handler w2)
          as [[err|] w3] eqn:Hadd;
        [ rewrite (body_handler_fails cl gc s ca w1 inf w2 err w3 Hlk Hnew Hinf Hadd)
        | rewrite (body_registers cl gc s ca w1 inf w2 w3 Hlk Hnew Hinf Hadd) ]
      | rewrite (body_informer_fails cl gc s ca w1 err w2 Hlk Hnew Hinf) ]
    | rewrite (body_cache_fails cl gc s err w1 Hlk Hnew) ] ].

Lemma created_app t1 t2 : created (t1 ++ t2) = created t1 ++ created t2.
Proof. apply omap_app. Qed.

Lemma cacheNew_configs_app t1 t2 :
  cacheNew_configs (t1 ++ t2) = cacheNew_configs t1 ++ cacheNew_configs t2.
Proof. apply omap_app. Qed.

Lemma spawned_app t1 t2 : spawned (t1 ++ t2) = spawned t1 ++ spawned t2.
Proof. apply omap_app. Qed.


Lemma body_context_use cl gc s :
  context_use cl gc s (WatchReferencedResources_body cl gc s).
Proof.
  body_paths cl gc s.
  - by apply use_none.
  - by apply use_cancelled.
  - by eapply use_stored.
  - by apply use_cancelled.
  - by apply use_none.
Qed.

Lemma body_no_lock_ops cl gc s :
  lock_ops (WatchReferencedResources_body cl gc s).2 = [].
Proof. body_paths cl gc s; reflexivity. Qed.

Lemma body_cluster cl gc s :
  resolve_cluster (WatchReferencedResources_body cl gc s).1.1
                  (this (WatchReferencedResources_body cl gc s).1.2)
  = resolve_cluster cl (this s) /\
  forall cfg, cfg ∈ cacheNew_configs (WatchReferencedResources_body cl gc s).2 ->
              cfg = GetConfig (resolve_cluster cl (this s)).
Proof.
  body_paths cl gc s; simpl; (split; [done|]); intros cfg Hin;
    try (by apply elem_of_nil in Hin); by apply list_elem_of_singleton in Hin.
Qed.

(** X7: the happy path.  When the key is new and [cache.New],
    [GetInformer] and [AddEventHandler] all succeed, the pass stores the
    new cache under the key together with a context made in this pass,
    starts the cache and the wait for its sync as goroutines under that
    context, registers the update handler, and does not cancel the context;
    the sessions of all other keys are as before. *)
Theorem WatchReferencedResources_registers_new_key cl gc s ca w1 inf w2 w3 :
  cdCaches (this s) !! gc = None ->
  cache_New (GetConfig (resolve_cluster cl (this s))) (world s) = (inl ca, w1) ->
  GetInformer ca (ctxs s) (gvk gc) w1 = (inl inf, w2) ->
  AddEventHandler inf WatchReferencedResources_handler w2 = (None, w3) ->
  exists cl' s' t c,
    WatchReferencedResources_body cl gc s = (cl', s', t) /\
    cdCaches (this s') !! gc = Some {| cache := ca; cancelFn := c |} /\
    created t = [c] /\
    cancels t = [] /\
    spawned t = [GoCacheStart ca c; GoWaitForCacheSync ca c] /\
    registered_handlers t = [WatchReferencedResources_handler] /\
    cdCache_sets t = [gc] /\
    forall g, g ≠ gc -> cdCaches (this s') !! g = cdCaches (this s) !! g.
Proof.
  intros Hlk Hnew Hinf Hadd.
  rewrite (body_registers cl gc s ca w1 inf w2 w3 Hlk Hnew Hinf Hadd).
  eexists _, _, _, (ctxs s). split; [reflexivity|]. simpl.
  rewrite lookup_insert_eq. repeat split; try done.
  intros g Hne. by rewrite lookup_insert_ne.
Qed.

(** An empty map stays a map of sessions with allocated contexts. *)
Lemma range_allocated cl gcs s :
  cancelFns_allocated s ->
  cancelFns_allocated (WatchReferencedResources_range cl gcs s).1.2.
Proof.
  intros Halloc. revert cl s Halloc. induction gcs as [|gc rest IH]; intros cl s Halloc; [done|].
  rewrite range_cons.
  destruct (body_context_use cl gc s)
    as [cl' s1 t1 Hthis Hn _ _ _|cl' s1 t1 Hthis Hn _ _ _|cl' s1 t1 ca Hlk Hthis Hn _ _ _].
  - assert (cancelFns_allocated s1) as H1.
    { intros g se. rewrite Hthis, Hn. apply Halloc. }
    specialize (IH cl' s1 H1).
    by destruct (WatchReferencedResources_range cl' rest s1) as [[u s2] t2].
  - assert (cancelFns_allocated s1) as H1.
    { intros g se Hg. rewrite Hthis in Hg. rewrite Hn. specialize (Halloc g se Hg). lia. }
    specialize (IH cl' s1 H1).
    by destruct (WatchReferencedResources_range cl' rest s1) as [[u s2] t2].
  - assert (cancelFns_allocated s1) as H1.
    { intros g se Hg. rewrite Hthis in Hg. rewrite Hn. simpl in Hg.
      apply lookup_insert_Some in Hg as [[<- <-]|[_ Hg]]; simpl; [lia|].
      specialize (Halloc g se Hg). lia. }
    specialize (IH cl' s1 H1).
    by destruct (WatchReferencedResources_range cl' rest s1) as [[u s2] t2].
Qed.

(** The bookkeeping of contexts over the loop. *)
Lemma range_contexts cl gcs s :
  let s' := (WatchReferencedResources_range cl gcs s).1.2 in
  let t := (WatchReferencedResources_range cl gcs s).2 in
  ctxs s <= ctxs s' /\
  (forall c, c ∈ created t -> ctxs s <= c < ctxs s') /\
  (forall c, c ∈ cancels t -> c ∈ created t) /\
  (forall g se, cdCaches (this s') !! g = Some se ->
     cdCaches (this s) !! g = Some se \/
     (cdCaches (this s) !! g = None /\ cancelFn se ∈ created t /\ cancelFn se ∉ cancels t)) /\
  (forall c, c ∈ created t ->
     c ∈ cancels t \/ exists g se, cdCaches (this s') !! g = Some se /\ cancelFn se = c) /\
  NoDup (created t).
Proof.
  revert cl s. induction gcs as [|gc rest IH]; intros cl s.
  { simpl. split; [done|]. split; [intros c Hin; by apply elem_of_nil in Hin|].
    split; [intros c Hin; by apply elem_of_nil in Hin|]. split; [by left|].
    split; [intros c Hin; by apply elem_of_nil in Hin|]. apply NoDup_nil_2. }
  rewrite range_cons.
  destruct (body_context_use cl gc s)
    as [cl' s1 t1 Hthis Hn Hcr Hca _|cl' s1 t1 Hthis Hn Hcr Hca _
       |cl' s1 t1 ca Hlk Hthis Hn Hcr Hca _];
    specialize (IH cl' s1);
    pose proof (range_frame cl' rest s1) as (_ & _ & _ & _ & Hkeep);
    destruct (WatchReferencedResources_range cl' rest s1) as [[u s2] t2];
    cbn [fst snd] in *;
    destruct IH as (I1 & I2 & I3 & I4 & I5 & I6);
    rewrite created_app, cancels_app, Hcr, Hca; cbn [app].
  - rewrite Hthis, Hn in *.
    exact (conj I1 (conj I2 (conj I3 (conj I4 (conj I5 I6))))).
  - rewrite Hthis, Hn in *. split; [lia|]. split.
    { intros c Hin. apply elem_of_cons in Hin as [->|Hin]; [lia|].
      specialize (I2 c Hin). lia. }
    split.
    { intros c Hin. apply elem_of_cons in Hin as [->|Hin]; [by left|].
      right. by apply I3. }
    split.
    { intros g se Hg. destruct (I4 g se Hg) as [?|(Hnone & Hin & Hnot)]; [by left|].
      right. split; [done|]. split; [by right|].
      rewrite not_elem_of_cons. split; [|done].
      specialize (I2 _ Hin). lia. }
    split.
    { intros c Hin. apply elem_of_cons in Hin as [->|Hin]; [left; by left|].
      destruct (I5 c Hin) as [?|?]; [left; by right|by right]. }
    apply NoDup_cons. split; [|done]. intros Hin. specialize (I2 _ Hin). lia.
  - rewrite Hn in *. split; [lia|]. split.
    { intros c Hin. apply elem_of_cons in Hin as [->|Hin]; [lia|].
      specialize (I2 c Hin). lia. }
    split.
    { intros c Hin. right. by apply I3. }
    split.
    { intros g se Hg. destruct (I4 g se Hg) as [H1|(Hnone & Hin & Hnot)].
      - rewrite Hthis in H1. simpl in H1.
        apply lookup_insert_Some in H1 as [[<- <-]|[Hne H1]]; [|by left].
        right. split; [done|]. split; [by left|]. simpl.
        intros Hin. apply I3 in Hin. specialize (I2 _ Hin). lia.
      - rewrite Hthis in Hnone. simpl in Hnone.
        apply lookup_insert_None in Hnone as [Hnone Hne].
        right. split; [done|]. split; [by right|done]. }
    split.
    { intros c Hin. apply elem_of_cons in Hin as [->|Hin].
      - right. exists gc, {| cache := ca; cancelFn := ctxs s |}. split; [|done].
        apply Hkeep. rewrite Hthis. simpl. apply lookup_insert_eq.
      - destruct (I5 c Hin) as [?|?]; [by left|by right]. }
    apply NoDup_cons. split; [|done]. intros Hin. specialize (I2 _ Hin). lia.
Qed.

Lemma range_added cl gcs s g se :
  cdCaches (this (WatchReferencedResources_range cl gcs s).1.2) !! g = Some se ->
  cdCaches (this s) !! g = Some se \/
  g ∈ cdCache_sets (WatchReferencedResources_range cl gcs s).2.
Proof.
  revert cl s. induction gcs as [|gc rest IH]; intros cl s; [by left|].
  rewrite range_cons.
  destruct (body_context_use cl gc s)
    as [cl' s1 t1 Hthis _ _ _ Hsets|cl' s1 t1 Hthis _ _ _ Hsets
       |cl' s1 t1 ca Hlk Hthis _ _ _ Hsets];
    specialize (IH cl' s1);
    destruct (WatchReferencedResources_range cl' rest s1) as [[u s2] t2];
    cbn [fst snd] in *; rewrite cdCache_sets_app, Hsets; cbn [app];
    intros Hg; destruct (IH Hg) as [H1|H1].
  - left. by rewrite <- Hthis.
  - by right.
  - left. by rewrite <- Hthis.
  - by right.
  - rewrite Hthis in H1. simpl in H1.
    apply lookup_insert_Some in H1 as [[<- <-]|[Hne H1]]; [right; by left|by left].
  - right. by right.
Qed.

Lemma range_sets_declared cl gcs s g :
  g ∈ cdCache_sets (WatchReferencedResources_range cl gcs s).2 ->
  g ∈ gcs /\ is_Some (cdCaches (this (WatchReferencedResources_range cl gcs s).1.2) !! g).
Proof.
  revert cl s. induction gcs as [|gc rest IH]; intros cl s.
  { intros Hin. by apply elem_of_nil in Hin. }
  rewrite range_cons.
  destruct (body_context_use cl gc s)
    as [cl' s1 t1 Hthis _ _ _ Hsets|cl' s1 t1 Hthis _ _ _ Hsets
       |cl' s1 t1 ca Hlk Hthis _ _ _ Hsets];
    specialize (IH cl' s1);
    pose proof (range_frame cl' rest s1) as (_ & _ & _ & _ & Hkeep);
    destruct (WatchReferencedResources_range cl' rest s1) as [[u s2] t2];
    cbn [fst snd] in *; rewrite cdCache_sets_app, Hsets; cbn [app]; intros Hin.
  - destruct (IH Hin). split; [by right|done].
  - destruct (IH Hin). split; [by right|done].
  - apply elem_of_cons in Hin as [->|Hin].
    + split; [by left|]. eexists. apply Hkeep. rewrite Hthis. simpl. apply lookup_insert_eq.
    + destruct (IH Hin). split; [by right|done].
Qed.

Lemma range_sets_NoDup cl gcs s :
  NoDup (cdCache_sets (WatchReferencedResources_range cl gcs s).2).
Proof.
  revert cl s. induction gcs as [|gc rest IH]; intros cl s; [apply NoDup_nil_2|].
  rewrite range_cons.
  destruct (body_context_use cl gc s)
    as [cl' s1 t1 Hthis _ _ _ Hsets|cl' s1 t1 Hthis _ _ _ Hsets
       |cl' s1 t1 ca Hlk Hthis _ _ _ Hsets];
    specialize (IH cl' s1);
    pose proof (range_sets_absent cl' rest s1 gc) as Habs;
    destruct (WatchReferencedResources_range cl' rest s1) as [[u s2] t2];
    cbn [fst snd] in *; rewrite cdCache_sets_app, Hsets; cbn [app]; try done.
  apply NoDup_cons. split; [|done]. intros Hin. specialize (Habs Hin).
  rewrite Hthis in Habs. simpl in Habs. by rewrite lookup_insert_eq in Habs.
Qed.

Lemma range_cluster cl gcs s cfg :
  cfg ∈ cacheNew_configs (WatchReferencedResources_range cl gcs s).2 ->
  cfg = GetConfig (resolve_cluster cl (this s)).
Proof.
  revert cl s. induction gcs as [|gc rest IH]; intros cl s.
  { intros Hin. by apply elem_of_nil in Hin. }
  rewrite range_cons. pose proof (body_cluster cl gc s) as [Hres Hcfg].
  destruct (WatchReferencedResources_body cl gc s) as [[cl' s1] t1].
  specialize (IH cl' s1).
  destruct (WatchReferencedResources_range cl' rest s1) as [[u s2] t2].
  cbn [fst snd] in *. rewrite cacheNew_configs_app, elem_of_app.
  intros [Hin|Hin]; [by apply Hcfg|]. rewrite <- Hres. by apply IH.
Qed.

Lemma range_no_lock_ops cl gcs s :
  lock_ops (WatchReferencedResources_range cl gcs s).2 = [].
Proof.
  revert cl s. induction gcs as [|gc rest IH]; intros cl s; [done|].
  rewrite range_cons. pose proof (body_no_lock_ops cl gc s) as Hb.
  destruct (WatchReferencedResources_body cl gc s) as [[cl' s1] t1].
  specialize (IH cl' s1).
  destruct (WatchReferencedResources_range cl' rest s1) as [[u s2] t2].
  cbn [fst snd] in *. by rewrite lock_ops_app, Hb, IH.
Qed.

End WatchFurther.

Section WatchCall.

Context {World : Type} `{!ResourceCacheAPI World}.

Implicit Types (s : State World) (cl : option Cluster) (gc : gvkWithConfig).

(** The lock operations around the loop add nothing to what is read off
    the log. *)
Lemma call_log_readers cl gcs s :
  let t := (WatchReferencedResources_range cl gcs s).2 in
  let t' := (WatchReferencedResources cl gcs s).2 in
  (WatchReferencedResources cl gcs s).1.2 = (WatchReferencedResources_range cl gcs s).1.2 /\
  created t' = created t /\
  cancels t' = cancels t /\
  cdCache_sets t' = cdCache_sets t /\
  cacheNew_configs t' = cacheNew_configs t.
Proof.
  rewrite WatchReferencedResources_unfold.
  destruct (WatchReferencedResources_range cl gcs s) as [[u s'] t]. cbn [fst snd].
  change (EvRLock :: t ++ [EvRUnlock]) with ([EvRLock] ++ t ++ [EvRUnlock]).
  rewrite !created_app, !cancels_app, !cdCache_sets_app, !cacheNew_configs_app.
  cbn. by rewrite !app_nil_r.
Qed.

(** X8: a call of [WatchReferencedResources] only adds sessions.  It
    leaves [sinks], [objectsCache] and [cluster] as they were, and every
    key that had a session still has the same session afterwards, whatever
    the outside world answered. *)
Theorem WatchReferencedResources_only_adds cl gcs s :
  let s' := (WatchReferencedResources cl gcs s).1.2 in
  sinks (this s') = sinks (this s) /\
  objectsCache (this s') = objectsCache (this s) /\
  cluster (this s') = cluster (this s) /\
  forall g se, cdCaches (this s) !! g = Some se -> cdCaches (this s') !! g = Some se.
Proof.
  cbv zeta. destruct (call_log_readers cl gcs s) as (-> & _).
  destruct (range_frame cl gcs s) as (? & ? & ? & _ & ?). done.
Qed.

(** X9: the sessions a call adds are for keys it was given.  A key with a
    session after the call either had that session before, or is one of the
    declared keys, had no session before, and was written to [cdCaches] by
    this call; and no key is written twice in one call, also when it is
    listed twice. *)
Theorem WatchReferencedResources_adds_declared_keys_once cl gcs s :
  let s' := (WatchReferencedResources cl gcs s).1.2 in
  let t := (WatchReferencedResources cl gcs s).2 in
  (forall g se,
     cdCaches (this s') !! g = Some se ->
     cdCaches (this s) !! g = Some se \/
     (g ∈ gcs /\ cdCaches (this s) !! g = None /\ g ∈ cdCache_sets t)) /\
  (forall g, g ∈ cdCache_sets t -> g ∈ gcs /\ is_Some (cdCaches (this s') !! g)) /\
  NoDup (cdCache_sets t).
Proof.
  cbv zeta. destruct (call_log_readers cl gcs s) as (-> & _ & _ & -> & _).
  split; [|split].
  - intros g se Hg. destruct (range_added cl gcs s g se Hg) as [?|Hin]; [by left|].
    right. destruct (range_sets_declared cl gcs s g Hin) as [? _].
    split; [done|]. split; [|done]. by apply (range_sets_absent cl gcs s).
  - apply range_sets_declared.
  - apply range_sets_NoDup.
Qed.

(** X10: no context is leaked and no cancelled context is kept.  In a
    state where the contexts of all sessions were made earlier, the
    contexts a call makes are pairwise different; each of them is either
    cancelled within the call or is the [cancelFn] of a session in
    [cdCaches] after it; and a context cancelled within the call was made
    in it and is the [cancelFn] of no session afterwards. *)
Theorem WatchReferencedResources_accounts_for_contexts cl gcs s :
  cancelFns_allocated s ->
  let s' := (WatchReferencedResources cl gcs s).1.2 in
  let t := (WatchReferencedResources cl gcs s).2 in
  NoDup (created t) /\
  (forall c, c ∈ created t ->
     c ∈ cancels t \/ exists g se, cdCaches (this s') !! g = Some se /\ cancelFn se = c) /\
  (forall c, c ∈ cancels t ->
     c ∈ created t /\ forall g se, cdCaches (this s') !! g = Some se -> cancelFn se ≠ c).
Proof.
  intros Halloc. cbv zeta.
  destruct (call_log_readers cl gcs s) as (-> & -> & -> & _).
  destruct (range_contexts cl gcs s) as (_ & H2 & H3 & H4 & H5 & H6).
  split; [done|]. split; [done|].
  intros c Hc. split; [by apply H3|]. intros g se Hg Heq.
  destruct (H4 g se Hg) as [Hold|(_ & _ & Hnot)].
  - specialize (Halloc g se Hold). specialize (H2 c (H3 c Hc)). lia.
  - apply Hnot. by rewrite Heq.
Qed.

(** X11: the cluster override.  Every [cache.New] of a call gets the
    configuration of the cluster passed in, or of the receiver's own
    cluster when nil was passed, for every key of the call. *)
Theorem WatchReferencedResources_uses_resolved_cluster cl gcs s cfg :
  cfg ∈ cacheNew_configs (WatchReferencedResources cl gcs s).2 ->
  cfg = GetConfig (resolve_cluster cl (this s)).
Proof.
  destruct (call_log_readers cl gcs s) as (_ & _ & _ & _ & ->).
  apply range_cluster.
Qed.

End WatchCall.

(** ** The sweep, continued *)

Lemma filter_none {A} (P : A -> Prop) `{forall x, Decision (P x)} (l : list A) :
  (forall x, x ∈ l -> ~ P x) -> filter P l = [].
Proof.
  induction l as [|x l IH]; intros Hl; [done|].
  rewrite filter_cons_False by (apply Hl; by left).
  apply IH. intros y Hy. apply Hl. by right.
Qed.

Section CleanupFurther.

Variable objectRefGVKsIndex : string.
Variable refKeyGKV : string -> string -> string -> string -> string.

Local Abbreviation query := (list_referencing objectRefGVKsIndex refKeyGKV).
Local Abbreviation sweep_range := (cleanup_range objectRefGVKsIndex refKeyGKV).
Local Abbreviation stopped := (stops objectRefGVKsIndex refKeyGKV).
Local Abbreviation sweep :=
  (cleanupReferencedResourceInformers objectRefGVKsIndex refKeyGKV).
Local Abbreviation key_of := (refKey_of refKeyGKV).

Lemma cdCache_deletes_app t1 t2 :
  cdCache_deletes (t1 ++ t2) = cdCache_deletes t1 ++ cdCache_deletes t2.
Proof. apply omap_app. Qed.

Lemma list_queries_app t1 t2 : list_queries (t1 ++ t2) = list_queries t1 ++ list_queries t2.
Proof. apply omap_app. Qed.

Lemma cleanup_range_no_lock_ops ctx l i : lock_ops (sweep_range ctx l i).2 = [].
Proof.
  revert i. induction l as [|[gc se] l IH]; intros i; [done|].
  cbn [cleanup_range].
  assert (forall r, lock_ops (cleanup_query objectRefGVKsIndex refKeyGKV ctx gc r) = [])
    as Hq.
  { intros r. unfold cleanup_query. by destruct r.2. }
  destruct (bool_decide _).
  - specialize (IH i). destruct (sweep_range ctx l i) as [i' t]. cbn [snd] in *.
    by rewrite lock_ops_app, Hq, IH.
  - specialize (IH (set_cdCaches (delete gc) i)).
    destruct (sweep_range ctx l (set_cdCaches (delete gc) i)) as [i' t]. cbn [snd] in *.
    by rewrite !lock_ops_app, Hq, IH.
Qed.

Lemma cleanup_query_readers ctx gc r :
  let t := cleanup_query objectRefGVKsIndex refKeyGKV ctx gc r in
  cdCache_deletes t = [] /\ cdCache_sets t = [] /\ spawned t = [] /\ created t = [] /\
  list_queries t = [(ctx, objectRefGVKsIndex, key_of gc)].
Proof. unfold cleanup_query. by destruct r.2. Qed.

(** What the loop of the sweep logs, entry by entry. *)
Lemma cleanup_range_log ctx l i :
  let t := (sweep_range ctx l i).2 in
  cdCache_deletes t = (filter (stopped ctx i) l).*1 /\
  list_queries t = (fun e => (ctx, objectRefGVKsIndex, key_of e.1)) <$> l /\
  cdCache_sets t = [] /\ spawned t = [] /\ created t = [].
Proof.
  revert i. induction l as [|[gc se] l IH]; intros i; [done|].
  cbn [cleanup_range].
  destruct (cleanup_query_readers ctx gc (query ctx i gc)) as (Q1 & Q2 & Q3 & Q4 & Q5).
  destruct (bool_decide (0 < length (query ctx i gc).1)) eqn:Hb.
  - rewrite filter_cons_False.
    2:{ intros Hs. apply (stops_iff _ _ ctx i gc se) in Hs. congruence. }
    specialize (IH i). destruct (sweep_range ctx l i) as [i' t]. cbn [snd] in *.
    destruct IH as (I1 & I2 & I3 & I4 & I5).
    rewrite cdCache_deletes_app, list_queries_app, cdCache_sets_app, spawned_app,
      created_app, Q1, Q2, Q3, Q4, Q5, I1, I2, I3, I4, I5. done.
  - apply (stops_iff _ _ ctx i gc se) in Hb. rewrite filter_cons_True by done.
    specialize (IH (set_cdCaches (delete gc) i)).
    destruct (sweep_range ctx l (set_cdCaches (delete gc) i)) as [i' t]. cbn [snd] in *.
    destruct IH as (I1 & I2 & I3 & I4 & I5).
    rewrite !cdCache_deletes_app, !list_queries_app, !cdCache_sets_app, !spawned_app,
      !created_app, Q1, Q2, Q3, Q4, Q5, I1, I2, I3, I4, I5. done.
Qed.

(** X12: the sweep decides on the returned list alone.  For a key with a
    session, in a registry whose sessions own distinct contexts: when the
    list that came back is empty the key is removed and its [cancelFn]
    called once, and when the list holds an object the key keeps its
    session and its [cancelFn] is not called; in both cases whether or not
    the query also returned an error. *)
Theorem cleanup_decides_on_list_alone ctx i gc se :
  cancelFns_distinct i ->
  cdCaches i !! gc = Some se ->
  cdCaches (sweep ctx i).1 !! gc
  = (if decide ((query ctx i gc).1 = []) then None else Some se) /\
  cancel_count (cancelFn se) (sweep ctx i).2
  = (if decide ((query ctx i gc).1 = []) then 1 else 0).
Proof.
  intros Hdist Hlk. split.
  - by apply cleanup_lookup.
  - by apply cleanup_cancel_count.
Qed.

(** X13: the sweep only removes sessions.  It leaves [sinks],
    [objectsCache] and [cluster] as they were; a key with a session
    afterwards had that session before; and it writes no session, makes no
    context and starts no goroutine. *)
Theorem cleanup_only_removes ctx i :
  sinks (sweep ctx i).1 = sinks i /\
  objectsCache (sweep ctx i).1 = objectsCache i /\
  cluster (sweep ctx i).1 = cluster i /\
  (forall g se, cdCaches (sweep ctx i).1 !! g = Some se -> cdCaches i !! g = Some se) /\
  cdCache_sets (sweep ctx i).2 = [] /\
  created (sweep ctx i).2 = [] /\
  spawned (sweep ctx i).2 = [].
Proof.
  unfold cleanupReferencedResourceInformers.
  destruct (cleanup_range_frame objectRefGVKsIndex refKeyGKV ctx
              (map_to_list (cdCaches i)) i) as (Ho & Hs & Hc).
  destruct (cleanup_range_log ctx (map_to_list (cdCaches i)) i) as (_ & _ & L3 & L4 & L5).
  repeat split; try done.
  intros g se. rewrite cleanup_range_lookup. by case_decide.
Qed.

(** X14: the sweep asks the index once for every key that has a session
    when it starts, with the context it was given, the index field, and the
    index key built from that key's config, kind, group and version. *)
Theorem cleanup_queries_each_key_once ctx i :
  list_queries (sweep ctx i).2
  ≡ₚ (fun e => (ctx, objectRefGVKsIndex, key_of e.1)) <$> map_to_list (cdCaches i) /\
  length (list_queries (sweep ctx i).2) = size (cdCaches i).
Proof.
  unfold cleanupReferencedResourceInformers.
  destruct (cleanup_range_log ctx (map_to_list (cdCaches i)) i) as (_ & -> & _).
  split; [done|]. by rewrite length_fmap, length_map_to_list.
Qed.

(** X15: what the sweep cancels is what it deletes.  The keys it deletes
    and the contexts it cancels come, in step, from one list of entries of
    [cdCaches]: each had that session before the sweep, got an empty list
    from the index, and has no session after it. *)
Theorem cleanup_cancels_what_it_deletes ctx i :
  exists removed : list (gvkWithConfig * cdCache),
    cdCache_deletes (sweep ctx i).2 = removed.*1 /\
    cancels (sweep ctx i).2 = (cancelFn ∘ snd) <$> removed /\
    forall e, e ∈ removed ->
      cdCaches i !! e.1 = Some e.2 /\
      (query ctx i e.1).1 = [] /\
      cdCaches (sweep ctx i).1 !! e.1 = None.
Proof.
  exists (filter (stopped ctx i) (map_to_list (cdCaches i))).
  unfold cleanupReferencedResourceInformers.
  destruct (cleanup_range_log ctx (map_to_list (cdCaches i)) i) as (-> & _).
  rewrite cleanup_range_cancels. split; [done|]. split; [done|].
  intros [g se] Hin. pose proof Hin as Hin'.
  apply list_elem_of_filter in Hin as [Hs Hin]. apply elem_of_map_to_list in Hin.
  split; [done|]. split; [exact Hs|].
  rewrite cleanup_range_lookup. rewrite decide_True; [done|].
  apply list_elem_of_fmap. by exists (g, se).
Qed.

(** X16: sweeping twice is sweeping once.  A second sweep, against the
    same answers of the index, removes nothing and cancels nothing: every
    key the first sweep kept got a list with an object in it. *)
Theorem cleanup_twice ctx i :
  cdCaches (sweep ctx (sweep ctx i).1).1 = cdCaches (sweep ctx i).1 /\
  cancels (sweep ctx (sweep ctx i).1).2 = [] /\
  cdCache_deletes (sweep ctx (sweep ctx i).1).2 = [].
Proof.
  set (i1 := (sweep ctx i).1).
  assert (filter (stopped ctx i1) (map_to_list (cdCaches i1)) = []) as Hnone.
  { apply filter_none. intros [g se] Hin Hs. apply elem_of_map_to_list in Hin.
    subst i1. unfold cleanupReferencedResourceInformers in Hin.
    rewrite cleanup_range_lookup in Hin. case_decide as Hdec; [done|].
    apply Hdec. apply list_elem_of_fmap. exists (g, se). split; [done|].
    apply list_elem_of_filter. split; [|by apply elem_of_map_to_list].
    unfold stops, list_referencing in *. simpl in *.
    destruct (cleanup_range_frame objectRefGVKsIndex refKeyGKV ctx
                (map_to_list (cdCaches i)) i) as (Ho & _).
    unfold cleanupReferencedResourceInformers in Hs. by rewrite Ho in Hs. }
  unfold cleanupReferencedResourceInformers.
  destruct (cleanup_range_log ctx (map_to_list (cdCaches i1)) i1) as (-> & _).
  rewrite cleanup_range_cancels, Hnone. split; [|done].
  apply map_eq. intros g. rewrite cleanup_range_lookup, Hnone.
  rewrite decide_False; [done|]. apply not_elem_of_nil.
Qed.

End CleanupFurther.

(** ** Sequences of calls, continued *)

Section SequencesFurther.

Variable objectRefGVKsIndex : string.
Variable refKeyGKV : string -> string -> string -> string -> string.
Context {World : Type} `{!ResourceCacheAPI World}.

Implicit Types (s : State World) (o : Op) (os : list Op).

Local Abbreviation step := (run_op objectRefGVKsIndex refKeyGKV).
Local Abbreviation steps := (run_ops objectRefGVKsIndex refKeyGKV).

Lemma step_releases_lock o s : mode_after Unlocked (step o s).2 = Unlocked.
Proof.
  destruct o as [ctx h q ps id|id|cl gcs|ctx]; simpl; try done.
  - rewrite WatchReferencedResources_unfold.
    pose proof (range_lock_mode cl gcs s ReadLocked) as [_ Hm].
    destruct (WatchReferencedResources_range cl gcs s) as [[u s'] t]. simpl in *.
    by rewrite mode_after_app, Hm.
  - unfold cleanupReferencedResourceInformers.
    pose proof (cleanup_range_lock_mode objectRefGVKsIndex refKeyGKV ctx
                  (map_to_list (cdCaches (this s))) (this s) Unlocked) as [_ Hm].
    by destruct (cleanup_range _ _ _ _ _) as [i' t].
Qed.

Lemma step_lock_run o s : lock_run unheld (step o s).2 = Some unheld.
Proof.
  destruct o as [ctx h q ps id|id|cl gcs|ctx]; simpl; try done.
  - rewrite WatchReferencedResources_unfold.
    pose proof (range_no_lock_ops cl gcs s) as Hno.
    destruct (WatchReferencedResources_range cl gcs s) as [[u s'] t]. cbn [fst snd] in *.
    change (EvRLock :: t ++ [EvRUnlock]) with ([EvRLock] ++ t ++ [EvRUnlock]).
    rewrite lock_run_app.
    change (lock_run unheld [EvRLock]) with (Some {| readers := 1; writer := false |}).
    cbv iota beta. by rewrite lock_run_app, (lock_run_no_ops _ t Hno).
  - unfold cleanupReferencedResourceInformers.
    pose proof (cleanup_range_no_lock_ops objectRefGVKsIndex refKeyGKV ctx
                  (map_to_list (cdCaches (this s))) (this s)) as Hno.
    destruct (cleanup_range _ _ _ _ _) as [i' t]. cbn [fst snd] in *.
    by apply lock_run_no_ops.
Qed.

(** X17: no method returns with [i.lock] held.  Run from a goroutine that
    holds nothing, any sequence of calls, each of which ran to its end,
    uses the lock correctly and ends holding nothing: every [Unlock]
    releases a write lock the goroutine holds and every [RUnlock] a read
    lock it holds, no [Lock] or [RLock] is taken while the goroutine
    itself stands in its way, and after the last call neither a read nor
    the write lock is held.  [Start], its goroutine and
    [WatchReferencedResources] release what they took, in the mode they
    took it, on every path through their loops, and the sweep takes
    nothing. *)
Theorem calls_release_the_lock os s :
  lock_run unheld (steps os s).2 = Some unheld.
Proof.
  revert s. induction os as [|o os IH]; intros s; [done|].
  simpl. pose proof (step_lock_run o s) as Hstep.
  destruct (step o s) as [s1 t1]. specialize (IH s1).
  destruct (steps os s1) as [s2 t2]. cbn [fst snd] in *.
  by rewrite lock_run_app, Hstep.
Qed.

(** X18: [sinks] is only written under the write lock.  In every sequence
    of [Start] calls and runs of their goroutines, each write to [sinks]
    happens while [i.lock] is held in write mode. *)
Theorem subscriptions_write_under_write_lock os s :
  Forall (fun o => is_subscription o = true) os ->
  mutations_hold_write_lock (steps os s).2 = true.
Proof.
  unfold mutations_hold_write_lock.
  intros Hsub. revert s. induction Hsub as [|o os Ho _ IH]; intros s; [done|].
  simpl. pose proof (step_releases_lock o s) as Hstep.
  assert (forallb (fun em : Event * LockMode =>
                     match em.2 with WriteLocked => true | _ => false end)
                  (lock_at_mutations Unlocked (step o s).2) = true) as Ho'.
  { by destruct o. }
  destruct (step o s) as [s1 t1]. specialize (IH s1).
  destruct (steps os s1) as [s2 t2]. simpl in *.
  by rewrite lock_at_mutations_app, forallb_app, Hstep, Ho', IH.
Qed.

(** X19: sessions never share a context.  If the sessions in [cdCaches]
    own pairwise different contexts, all made before the next one to be
    made, then so they do after any sequence of calls of the four entry
    points. *)
Theorem sessions_keep_distinct_contexts os s :
  wf_state s -> wf_state (steps os s).1.
Proof. apply steps_wf. Qed.

(** X20: an unsubscribed subscriber stays silent.  After the goroutine of
    a [Start] call has removed the entry [id], no notification calls [id],
    however many calls of the entry points come between, unless one of them
    is a [Start] that draws the same identity again. *)
Theorem unsubscribed_sink_stays_silent os s id oldObj newObj :
  Forall (fun o => starts id o = false) os ->
  sink_calls id
    (WatchReferencedResources_UpdateFunc oldObj newObj
       (this (steps os (with_this s (Start_ctxDone id (this s)).1)).1)) = [].
Proof. apply removed_sink_is_never_called. Qed.

Lemma step_separation o s :
  (is_subscription o = true -> cdCaches (this (step o s).1) = cdCaches (this s)) /\
  (is_subscription o = false -> sinks (this (step o s).1) = sinks (this s)).
Proof.
  destruct o as [ctx h q ps id|id|cl gcs|ctx]; simpl; split; try done; intros _.
  - rewrite WatchReferencedResources_unfold.
    pose proof (range_frame cl gcs s) as (Hs & _).
    by destruct (WatchReferencedResources_range cl gcs s) as [[u s'] t].
  - unfold cleanupReferencedResourceInformers.
    pose proof (cleanup_range_frame objectRefGVKsIndex refKeyGKV ctx
                  (map_to_list (cdCaches (this s))) (this s)) as (_ & Hs & _).
    by destruct (cleanup_range _ _ _ _ _) as [i' t].
Qed.

(** X21: subscribers and sessions are kept apart.  A sequence of [Start]
    calls and runs of their goroutines leaves [cdCaches] as it was; a
    sequence of [WatchReferencedResources] calls and sweeps leaves [sinks]
    as it was, so a notification is delivered after it exactly as it would
    have been before. *)
Theorem subscribers_and_sessions_are_separate os s :
  (Forall (fun o => is_subscription o = true) os ->
     cdCaches (this (steps os s).1) = cdCaches (this s)) /\
  (Forall (fun o => is_subscription o = false) os ->
     sinks (this (steps os s).1) = sinks (this s) /\
     forall oldObj newObj,
       WatchReferencedResources_UpdateFunc oldObj newObj (this (steps os s).1)
       = WatchReferencedResources_UpdateFunc oldObj newObj (this s)).
Proof.
  split.
  - intros Hsub. revert s. induction Hsub as [|o os Ho _ IH]; intros s; [done|].
    simpl. destruct (step_separation o s) as [Hstep _]. specialize (Hstep Ho).
    destruct (step o s) as [s1 t1]. specialize (IH s1).
    destruct (steps os s1) as [s2 t2]. simpl in *. congruence.
  - intros Hsub.
    assert (sinks (this (steps os s).1) = sinks (this s)) as Hsinks.
    { revert s. induction Hsub as [|o os Ho _ IH]; intros s; [done|].
      simpl. destruct (step_separation o s) as [_ Hstep]. specialize (Hstep Ho).
      destruct (step o s) as [s1 t1]. specialize (IH s1).
      destruct (steps os s1) as [s2 t2]. simpl in *. congruence. }
    split; [done|]. intros oldObj newObj.
    unfold WatchReferencedResources_UpdateFunc. by rewrite Hsinks.
Qed.

End SequencesFurther.

(** ** Worked examples, continued *)

Lemma WatchReferencedResources_registers_new_key_witness :
  exists cl' s' t c,
    WatchReferencedResources_body (Some remoteCluster) gcA
      (initial_state no_referencers all_succeed) = (cl', s', t) /\
    cdCaches (this s') !! gcA = Some {| cache := 10; cancelFn := c |} /\
    created t = [c] /\
    cancels t = [] /\
    spawned t = [GoCacheStart 10 c; GoWaitForCacheSync 10 c].
Proof.
  destruct (WatchReferencedResources_registers_new_key (Some remoteCluster) gcA
              (initial_state no_referencers all_succeed)
              10 [Ok 11; Ok 12; Ok 20; Ok 21; Ok 22]
              11 [Ok 12; Ok 20; Ok 21; Ok 22]
              [Ok 20; Ok 21; Ok 22])
    as (cl' & s' & t & c & Hbody & Hlk & Hcr & Hca & Hgo & _).
  - reflexivity.
  - reflexivity.
  - reflexivity.
  - reflexivity.
  - exists cl', s', t, c. split; [exact Hbody|]. split; [exact Hlk|].
    split; [exact Hcr|]. split; [exact Hca|exact Hgo].
Defined.

Lemma WatchReferencedResources_adds_declared_keys_once_witness :
  cdCache_sets (WatchReferencedResources None [gcA; gcA; gcB]
                  (initial_state no_referencers all_succeed)).2 = [gcA; gcB] /\
  NoDup (cdCache_sets (WatchReferencedResources None [gcA; gcA; gcB]
                         (initial_state no_referencers all_succeed)).2) /\
  (gcB ∈ [gcA; gcA; gcB] /\
   is_Some (cdCaches (this (WatchReferencedResources None [gcA; gcA; gcB]
                              (initial_state no_referencers all_succeed)).1.2) !! gcB)).
Proof.
  destruct (WatchReferencedResources_adds_declared_keys_once None [gcA; gcA; gcB]
              (initial_state no_referencers all_succeed)) as (_ & Hdecl & Hnodup).
  split; [reflexivity|]. split; [exact Hnodup|].
  apply Hdecl. vm_compute. right. left.
Defined.

Lemma WatchReferencedResources_accounts_for_contexts_witness :
  NoDup (created (WatchReferencedResources None [gcA; gcB]
                    (initial_state no_referencers informer_fails_once)).2) /\
  (0 ∈ created (WatchReferencedResources None [gcA; gcB]
                  (initial_state no_referencers informer_fails_once)).2 /\
   forall g se,
     cdCaches (this (WatchReferencedResources None [gcA; gcB]
                       (initial_state no_referencers informer_fails_once)).1.2) !! g
     = Some se -> cancelFn se ≠ 0).
Proof.
  destruct (WatchReferencedResources_accounts_for_contexts None [gcA; gcB]
              (initial_state no_referencers informer_fails_once)
              (proj2 (initial_state_wf no_referencers informer_fails_once)))
    as (Hnodup & _ & Hcancelled).
  split; [exact Hnodup|]. apply Hcancelled. vm_compute. left.
Defined.

Lemma WatchReferencedResources_uses_resolved_cluster_witness :
  "remote-kubeconfig"
  = GetConfig (resolve_cluster (Some remoteCluster)
                 (this (initial_state no_referencers all_succeed))).
Proof.
  apply (WatchReferencedResources_uses_resolved_cluster (Some remoteCluster) [gcA; gcB]
           (initial_state no_referencers all_succeed) "remote-kubeconfig").
  vm_compute. left.
Defined.

Lemma cleanup_decides_on_list_alone_witness :
  (list_referencing "objectRefGVKs" sample_refKeyGKV 7
     (this (declare_A_B partial_index)) gcA).2 = Some "context deadline exceeded" /\
  cdCaches (cleanupReferencedResourceInformers "objectRefGVKs" sample_refKeyGKV 7
              (this (declare_A_B partial_index))).1 !! gcA = Some session_A /\
  cancel_count (cancelFn session_A)
    (cleanupReferencedResourceInformers "objectRefGVKs" sample_refKeyGKV 7
       (this (declare_A_B partial_index))).2 = 0.
Proof.
  split; [reflexivity|].
  exact (cleanup_decides_on_list_alone "objectRefGVKs" sample_refKeyGKV 7
           (this (declare_A_B partial_index)) gcA session_A
           (proj1 (declare_A_B_wf partial_index)) eq_refl).
Defined.

Lemma subscriptions_write_under_write_lock_witness :
  mutations_hold_write_lock
    (run_ops "objectRefGVKs" sample_refKeyGKV
       [OpStart 3 "h3" "q3" [always true] "s3"; OpCtxDone "s1"; OpCtxDone "s3"]
       subscribed_state).2 = true.
Proof.
  apply (subscriptions_write_under_write_lock "objectRefGVKs" sample_refKeyGKV
           [OpStart 3 "h3" "q3" [always true] "s3"; OpCtxDone "s1"; OpCtxDone "s3"]
           subscribed_state).
  repeat constructor.
Defined.

Lemma sessions_keep_distinct_contexts_witness :
  wf_state
    (run_ops "objectRefGVKs" sample_refKeyGKV
       [OpWatch None [gcA; gcB]; OpCleanup 7; OpWatch (Some remoteCluster) [gcB; gcA]]
       (initial_state sample_index (all_succeed ++ all_succeed))).1.
Proof.
  apply (sessions_keep_distinct_contexts "objectRefGVKs" sample_refKeyGKV
           [OpWatch None [gcA; gcB]; OpCleanup 7; OpWatch (Some remoteCluster) [gcB; gcA]]
           (initial_state sample_index (all_succeed ++ all_succeed))).
  apply initial_state_wf.
Defined.

Lemma unsubscribed_sink_stays_silent_witness :
  sink_calls "s1"
    (WatchReferencedResources_UpdateFunc obj_v1 obj_v2
       (this (run_ops "objectRefGVKs" sample_refKeyGKV
                [OpWatch None [gcA]; OpStart 3 "h3" "q3" [] "s3"; OpCleanup 7]
                (with_this subscribed_state
                   (Start_ctxDone "s1" (this subscribed_state)).1)).1)) = [].
Proof.
  apply (unsubscribed_sink_stays_silent "objectRefGVKs" sample_refKeyGKV
           [OpWatch None [gcA]; OpStart 3 "h3" "q3" [] "s3"; OpCleanup 7]
           subscribed_state "s1" obj_v1 obj_v2).
  repeat constructor.
Defined.

Lemma subscribers_and_sessions_are_separate_witness :
  sinks (this (run_ops "objectRefGVKs" sample_refKeyGKV
                 [OpWatch None [gcA; gcB]; OpCleanup 7] subscribed_state).1)
  = sinks (this subscribed_state).
Proof.
  destruct (subscribers_and_sessions_are_separate "objectRefGVKs" sample_refKeyGKV
              [OpWatch None [gcA; gcB]; OpCleanup 7] subscribed_state) as [_ Hsinks].
  apply Hsinks. repeat constructor.
Defined.

Lemma Start_registers_and_returns_nil_witness :
  (Start 3 "h3" "q3" [always true] "s3" two_subscribers).1.1 = None /\
  sinks (Start 3 "h3" "q3" [always true] "s3" two_subscribers).1.2 !! "s3"
  = Some (Start_sink 3 "h3" "q3" [always true]) /\
  sinks (Start 3 "h3" "q3" [always true] "s3" two_subscribers).1.2 !! "s1"
  = sinks two_subscribers !! "s1".
Proof.
  destruct (Start_registers_and_returns_nil 3 "h3" "q3" [always true] "s3"
              two_subscribers) as (Hnil & Hstored & Hothers & _).
  split; [exact Hnil|]. split; [exact Hstored|].
  apply Hothers. intros H; discriminate H.
Defined.
